(** * Fixed-capacity data structures over caller-owned memory

    A shallow embedding of the four structures of the library
    (circular_buffer.h, stack_allocator.h, memory_pool.h,
    fixed_hash_table.h) and the proofs of their specified properties.

    Conventions of the embedding.
    - [size_t] is the 64-bit unsigned integer type of the LP64 targets the
      library is compiled for: a [Z] in [0, 2^64), every arithmetic result
      wrapped with [size_t].
    - A byte ([uint8_t], [char] in memory) is a [byte]; a region of memory is
      the [list byte] of its contents, addressed by offsets from its base.
    - A C string argument ([const char *key]) is the list of its characters
      before the terminating NUL.
    - A pointer is the address it holds, [NULL] is address 0.
    - A function that updates a structure through its pointer argument
      returns the updated structure next to its C return value. *)

From Stdlib Require Import ZArith List Lia Bool.
From Stdlib Require String.
From coqutil Require Import Byte Word.LittleEndianList.
Import ListNotations.
Local Open Scope Z_scope.

(** ** Machine integers and pointers *)

Definition size_t (z : Z) : Z := z mod 2 ^ 64.

Definition SIZE_MAX : Z := 2 ^ 64 - 1.

Definition NULL : Z := 0.

(** [sizeof(void * )] *)
Definition ptr_bytes : nat := 8.

(** The characters of a string literal. *)
Definition chars (s : String.string) : list byte :=
  String.list_byte_of_string s.

(** Keys and 4-byte values ([int], little endian) used in examples. *)
Module Examples.
Import String.
Local Open Scope string_scope.

Definition key_a : list byte := chars "a".
Definition key_k : list byte := chars "k".
Definition key_temp : list byte := chars "temp".
Definition key_15 : list byte := chars "0123456789abcde".
Definition key_16 : list byte := chars "0123456789abcdef".
Definition key_16X : list byte := chars "0123456789abcdeX".
Definition key_16Y : list byte := chars "0123456789abcdeY".
Definition key_18 : list byte := chars "0123456789abcdefgh".

Definition int_25 : list byte := [Byte.x19; Byte.x00; Byte.x00; Byte.x00].
Definition int_26 : list byte := [Byte.x1a; Byte.x00; Byte.x00; Byte.x00].
Definition int_27 : list byte := [Byte.x1b; Byte.x00; Byte.x00; Byte.x00].

End Examples.

(** ** Byte-addressed regions

    An access outside the region is undefined behaviour in C.  The model
    reads [x00] there and drops the store; the well-formedness predicates
    below keep every access of the operations inside the region. *)

Module Mem.

Definition in_range (m : list byte) (off : Z) : bool :=
  (0 <=? off) && (off <? Z.of_nat (length m)).

Definition load8 (m : list byte) (off : Z) : byte :=
  if in_range m off then nth (Z.to_nat off) m Byte.x00 else Byte.x00.

Definition store8 (m : list byte) (off : Z) (b : byte) : list byte :=
  if in_range m off
  then firstn (Z.to_nat off) m ++ b :: skipn (S (Z.to_nat off)) m
  else m.

(** Store the bytes [bs] at [off], [off+1], ... (memcpy into the region). *)
Fixpoint store_bytes (m : list byte) (off : Z) (bs : list byte) : list byte :=
  match bs with
  | [] => m
  | b :: bs' => store_bytes (store8 m off b) (off + 1) bs'
  end.

(** The [n] bytes at [off], [off+1], ... (memcpy out of the region). *)
Fixpoint load_bytes (m : list byte) (off : Z) (n : nat) : list byte :=
  match n with
  | O => []
  | S n' => load8 m off :: load_bytes m (off + 1) n'
  end.

(** memset(m + off, b, n) *)
Definition memset (m : list byte) (off : Z) (b : byte) (n : Z) : list byte :=
  store_bytes m off (repeat b (Z.to_nat n)).

(** A C string has no NUL among its characters. *)
Definition is_cstring (s : list byte) : Prop :=
  Forall (fun c => c <> Byte.x00) s.

(** The characters of a list up to its first NUL. *)
Fixpoint cstr (l : list byte) : list byte :=
  match l with
  | [] => []
  | c :: l' => if Byte.eqb c Byte.x00 then [] else c :: cstr l'
  end.

(** The C string that starts at [off]: what [(char * )(m + off)] denotes. *)
Definition cstring_at (m : list byte) (off : Z) : list byte :=
  if in_range m off then cstr (skipn (Z.to_nat off) m) else [].

(** A pointer stored in memory: 8 bytes, little endian. *)
Definition load_ptr (m : list byte) (off : Z) : Z :=
  le_combine (load_bytes m off ptr_bytes).

Definition store_ptr (m : list byte) (off : Z) (p : Z) : list byte :=
  store_bytes m off (le_split ptr_bytes p).

End Mem.

(** ** circular_buffer.h *)

Module CircularBuffer.
Import Mem.

(** [buffer] stands for the caller's region of [size] bytes. *)
Record circular_buffer_t := mk_cb {
  buffer : list byte;
  size : Z;
  head : Z;
  tail : Z;
  count : Z
}.

Definition cb_init (buffer : list byte) (size : Z) : circular_buffer_t :=
  {| buffer := buffer; size := size; head := 0; tail := 0; count := 0 |}.

Definition cb_is_empty (cb : circular_buffer_t) : bool :=
  count cb =? 0.

Definition cb_is_full (cb : circular_buffer_t) : bool :=
  count cb =? size cb.

(** [% cb->size] with [size = 0] is undefined in C ([Z.modulo] gives the
    dividend). *)
Definition cb_write (cb : circular_buffer_t) (data : byte)
  : bool * circular_buffer_t :=
  if cb_is_full cb then (false, cb)
  else (true,
        {| buffer := store8 (buffer cb) (head cb) data;
           size := size cb;
           head := size_t (head cb + 1) mod size cb;
           tail := tail cb;
           count := size_t (count cb + 1) |}).

(** The byte written through [data] is the first component; [None] when the
    call returns false and leaves [*data] alone. *)
Definition cb_read (cb : circular_buffer_t)
  : option byte * circular_buffer_t :=
  if cb_is_empty cb then (None, cb)
  else (Some (load8 (buffer cb) (tail cb)),
        {| buffer := buffer cb;
           size := size cb;
           head := head cb;
           tail := size_t (tail cb + 1) mod size cb;
           count := size_t (count cb - 1) |}).

Definition cb_available_space (cb : circular_buffer_t) : Z :=
  size_t (size cb - count cb).

Definition cb_data_count (cb : circular_buffer_t) : Z :=
  count cb.

(** A caller that writes the bytes [ws] one after the other, keeping the
    return values. *)
Fixpoint cb_write_all (cb : circular_buffer_t) (ws : list byte)
  : list bool * circular_buffer_t :=
  match ws with
  | [] => ([], cb)
  | w :: ws' =>
      let (ok, cb1) := cb_write cb w in
      let (oks, cb2) := cb_write_all cb1 ws' in
      (ok :: oks, cb2)
  end.

(** A caller that reads [n] times, keeping what each read returned. *)
Fixpoint cb_read_n (cb : circular_buffer_t) (n : nat)
  : list (option byte) * circular_buffer_t :=
  match n with
  | O => ([], cb)
  | S n' =>
      let (r, cb1) := cb_read cb in
      let (rs, cb2) := cb_read_n cb1 n' in
      (r :: rs, cb2)
  end.

(** A caller that interleaves writes and reads.  The state carries, next to
    the buffer, the bytes of the writes that succeeded and the bytes the
    reads that succeeded returned, both in order. *)
Inductive cb_op : Type :=
| OpWrite (data : byte)
| OpRead.

Definition cb_step (st : circular_buffer_t * (list byte * list byte))
  (op : cb_op) : circular_buffer_t * (list byte * list byte) :=
  let '(cb, (ws, rs)) := st in
  match op with
  | OpWrite data =>
      let (ok, cb') := cb_write cb data in
      (cb', (if ok then ws ++ [data] else ws, rs))
  | OpRead =>
      let (r, cb') := cb_read cb in
      (cb', (ws, match r with Some data => rs ++ [data] | None => rs end))
  end.

Definition cb_run (st : circular_buffer_t * (list byte * list byte))
  (ops : list cb_op) : circular_buffer_t * (list byte * list byte) :=
  fold_left cb_step ops st.

(** The [n] bytes stored from position [pos] on, going round the buffer. *)
Fixpoint cb_slice (buf : list byte) (sz : Z) (pos : Z) (n : nat) : list byte :=
  match n with
  | O => []
  | S n' => load8 buf pos :: cb_slice buf sz ((pos + 1) mod sz) n'
  end.

(** The queue a buffer holds: [count] bytes from [tail] on, oldest first. *)
Definition cb_contents (cb : circular_buffer_t) : list byte :=
  cb_slice (buffer cb) (size cb) (tail cb) (Z.to_nat (count cb)).

(** The states [cb_init], [cb_write] and [cb_read] produce over a region of
    [size] bytes or more. *)
Record cb_wf (cb : circular_buffer_t) : Prop := {
  wf_size : 0 < size cb < 2 ^ 64;
  wf_buffer : size cb <= Z.of_nat (length (buffer cb));
  wf_tail : 0 <= tail cb < size cb;
  wf_count : 0 <= count cb <= size cb;
  wf_head : head cb = (tail cb + count cb) mod size cb
}.

End CircularBuffer.

(** ** stack_allocator.h *)

Module StackAllocator.

(** [memory] is the address of the caller's region.  No function of the
    allocator reads or writes the bytes of the region, so its contents are
    not part of the state. *)
Record stack_allocator_t := mk_sa {
  memory : Z;
  size : Z;
  top : Z
}.

Definition stack_init (memory : Z) (size : Z) : stack_allocator_t :=
  {| memory := memory; size := size; top := 0 |}.

(** Returns the pointer ([NULL] on failure) and the allocator.  The pointer
    is the address [memory + top] as an integer.  The 64-bit pointer of the
    code is this value as long as [memory + top < 2 ^ 64], which holds for
    every [top] within a region that lies inside the address space; beyond
    that the pointer of the code wraps and this model does not follow it. *)
Definition stack_alloc (sa : stack_allocator_t) (bytes : Z)
  : Z * stack_allocator_t :=
  if size_t (top sa + bytes) >? size sa then (NULL, sa)
  else
    let ptr := memory sa + top sa in
    (ptr, {| memory := memory sa; size := size sa;
             top := size_t (top sa + bytes) |}).

Definition stack_free_to (sa : stack_allocator_t) (ptr : Z)
  : stack_allocator_t :=
  {| memory := memory sa; size := size sa; top := size_t (ptr - memory sa) |}.

Definition stack_reset (sa : stack_allocator_t) : stack_allocator_t :=
  {| memory := memory sa; size := size sa; top := 0 |}.

(** *** Callers and live handles *)

Inductive stack_op : Type :=
| OpAlloc (bytes : Z)
| OpFreeTo (ptr : Z)
| OpReset.

(** A handle is the pointer [stack_alloc] returned with the size that was
    asked for: it denotes the addresses [ptr, ptr + bytes). *)
Definition handle : Type := (Z * Z)%type.

(** The allocator with the handles that are live: [stack_free_to ptr]
    invalidates the handles allocated at or after [ptr], [stack_reset] all
    of them. *)
Definition stack_step (st : stack_allocator_t * list handle) (op : stack_op)
  : stack_allocator_t * list handle :=
  let (sa, live) := st in
  match op with
  | OpAlloc bytes =>
      let (ptr, sa') := stack_alloc sa bytes in
      if ptr =? NULL then (sa', live) else (sa', (ptr, bytes) :: live)
  | OpFreeTo ptr =>
      (stack_free_to sa ptr, filter (fun h => fst h <? ptr) live)
  | OpReset => (stack_reset sa, [])
  end.

Definition stack_run (st : stack_allocator_t * list handle)
  (ops : list stack_op) : stack_allocator_t * list handle :=
  fold_left stack_step ops st.

(** The handles of back-to-back allocations of the sizes [ns] from the
    address [ptr] on. *)
Fixpoint bump_handles (ptr : Z) (ns : list Z) : list handle :=
  match ns with
  | [] => []
  | n :: ns' => (ptr, n) :: bump_handles (ptr + n) ns'
  end.

(** Two handles overlap when some address belongs to both. *)
Definition overlap (h1 h2 : handle) : bool :=
  Z.max (fst h1) (fst h2) <? Z.min (fst h1 + snd h1) (fst h2 + snd h2).

(** The trust contract of [stack_free_to]: the pointer is a live handle.
    An allocation request is accepted here when [top + bytes] cannot wrap:
    [top] never exceeds [size], so [size + bytes < 2^64] is enough. *)
Definition op_ok (st : stack_allocator_t * list handle) (op : stack_op) : Prop :=
  match op with
  | OpAlloc bytes => 0 <= bytes /\ size (fst st) + bytes < 2 ^ 64
  | OpFreeTo ptr => exists bytes, In (ptr, bytes) (snd st)
  | OpReset => True
  end.

Fixpoint ops_ok (st : stack_allocator_t * list handle) (ops : list stack_op)
  : Prop :=
  match ops with
  | [] => True
  | op :: ops' => op_ok st op /\ ops_ok (stack_step st op) ops'
  end.

(** [later] was allocated after [earlier]: it starts where [earlier] ends
    or above. *)
Definition above (later earlier : handle) : Prop :=
  fst earlier + snd earlier <= fst later.

(** What holds of the allocator and its live handles, latest first, as long
    as the contract is kept. *)
Record stack_inv (st : stack_allocator_t * list handle) : Prop := {
  inv_top : 0 <= top (fst st) <= size (fst st);
  inv_size : size (fst st) < 2 ^ 64;
  inv_mem : 0 < memory (fst st);
  inv_live : Forall (fun h => memory (fst st) <= fst h /\ 0 <= snd h /\
                              fst h + snd h <= memory (fst st) + top (fst st))
               (snd st);
  inv_order : ForallOrdPairs above (snd st)
}.

End StackAllocator.

(** ** memory_pool.h *)

Module MemoryPool.
Import Mem.

(** [memory] is the address of the caller's region and [region] the bytes
    at [memory], [memory + 1], ...; [free_list] is the address of the first
    free block or [NULL]. *)
Record memory_pool_t := mk_mp {
  memory : Z;
  region : list byte;
  total_size : Z;
  block_size : Z;
  free_list : Z
}.

(** The body of the linking loop at index [i]: the address written and the
    pointer stored there. *)
Definition mp_link (memory block_size : Z) (i : Z) : Z * Z :=
  let current_block := memory + size_t (i * block_size) in
  let next_block := memory + size_t ((i + 1) * block_size) in
  (current_block, next_block).

(** [for (size_t i = ...; i < bound; i++)], [n] iterations left to run. *)
Fixpoint mp_init_loop (n : nat) (i : Z) (memory block_size : Z)
  : list (Z * Z) :=
  match n with
  | O => []
  | S n' => mp_link memory block_size i
            :: mp_init_loop n' (i + 1) memory block_size
  end.

(** The stores into link fields that [mp_init] performs, in program order:
    the loop runs while [i < num_blocks - 1], a comparison of [size_t]
    values, and the last block gets [NULL].  [total_size / block_size] with
    [block_size = 0] is undefined in C ([Z.div] gives 0). *)
Definition mp_init_links (memory total_size block_size : Z) : list (Z * Z) :=
  let num_blocks := total_size / block_size in
  let bound := size_t (num_blocks - 1) in
  let last_block := memory + size_t (bound * block_size) in
  mp_init_loop (Z.to_nat bound) 0 memory block_size ++ [(last_block, NULL)].

Definition mp_store_link (memory : Z) (region : list byte) (w : Z * Z)
  : list byte :=
  store_ptr region (fst w - memory) (snd w).

Definition mp_init (memory : Z) (region : list byte)
  (total_size block_size : Z) : memory_pool_t :=
  {| memory := memory;
     region := fold_left (mp_store_link memory)
                 (mp_init_links memory total_size block_size) region;
     total_size := total_size;
     block_size := block_size;
     free_list := memory |}.

(** Returns the block ([NULL] when no block is free) and the pool. *)
Definition mp_alloc (mp : memory_pool_t) : Z * memory_pool_t :=
  if free_list mp =? NULL then (NULL, mp)
  else
    let block := free_list mp in
    (block,
     {| memory := memory mp;
        region := region mp;
        total_size := total_size mp;
        block_size := block_size mp;
        free_list := load_ptr (region mp) (free_list mp - memory mp) |}).

Definition mp_free (mp : memory_pool_t) (block : Z) : memory_pool_t :=
  {| memory := memory mp;
     region := store_ptr (region mp) (block - memory mp) (free_list mp);
     total_size := total_size mp;
     block_size := block_size mp;
     free_list := block |}.

(** A caller that allocates [k] times, keeping the blocks returned. *)
Fixpoint mp_alloc_n (mp : memory_pool_t) (k : nat) : list Z * memory_pool_t :=
  match k with
  | O => ([], mp)
  | S k' =>
      let (block, mp1) := mp_alloc mp in
      let (blocks, mp2) := mp_alloc_n mp1 k' in
      (block :: blocks, mp2)
  end.

(** The addresses of the blocks [i], [i + 1], ..., [k] of them. *)
Fixpoint mp_blocks (memory block_size : Z) (i : Z) (k : nat) : list Z :=
  match k with
  | O => []
  | S k' => memory + i * block_size :: mp_blocks memory block_size (i + 1) k'
  end.

End MemoryPool.

(** ** fixed_hash_table.h *)

Module FixedHashTable.
Import Mem.

(** [memory] stands for the caller's region: bucket [i] is the
    [bucket_size] bytes from offset [i * bucket_size] on, a key field of
    [max_key_length] bytes, a value field of [value_size] bytes and the
    occupied flag. *)
Record fixed_hash_table_t := mk_ht {
  memory : list byte;
  table_size : Z;
  max_key_length : Z;
  value_size : Z;
  bucket_size : Z
}.

Definition set_memory (ht : fixed_hash_table_t) (m : list byte)
  : fixed_hash_table_t :=
  {| memory := m;
     table_size := table_size ht;
     max_key_length := max_key_length ht;
     value_size := value_size ht;
     bucket_size := bucket_size ht |}.

Definition ht_init (memory : list byte)
  (table_size max_key_length value_size : Z) : fixed_hash_table_t :=
  let bucket_size := size_t (max_key_length + value_size + 1) in
  {| memory := memset memory 0 Byte.x00 (size_t (table_size * bucket_size));
     table_size := table_size;
     max_key_length := max_key_length;
     value_size := value_size;
     bucket_size := bucket_size |}.

(** The value of a [char] in an expression: [char] is signed on the x86-64
    targets, and a negative value converts to [size_t] modulo [2^64]. *)
Definition char_val (c : byte) : Z :=
  if byte.unsigned c <? 128 then byte.unsigned c else byte.unsigned c - 256.

Fixpoint hash_loop (key : list byte) (hash : Z) : Z :=
  match key with
  | [] => hash
  | c :: key' => hash_loop key' (size_t (hash * 31 + char_val c))
  end.

Definition hash_function (key : list byte) : Z :=
  hash_loop key 0.

(** strcmp on the characters of two C strings; the end of a list is the
    terminating NUL, and characters compare as [unsigned char]. *)
Fixpoint strcmp (s1 s2 : list byte) : Z :=
  match s1, s2 with
  | [], [] => 0
  | [], c2 :: _ => 0 - byte.unsigned c2
  | c1 :: _, [] => byte.unsigned c1
  | c1 :: s1', c2 :: s2' =>
      if Byte.eqb c1 c2 then strcmp s1' s2'
      else byte.unsigned c1 - byte.unsigned c2
  end.

(** The [n] bytes strncpy(dest, src, n) stores at [dest]: the characters of
    [src], at most [n] of them, then NULs up to [n] bytes. *)
Definition strncpy (src : list byte) (n : Z) : list byte :=
  firstn (Z.to_nat n) src
  ++ repeat Byte.x00 (Z.to_nat n - length (firstn (Z.to_nat n) src)).

Definition bucket_of (ht : fixed_hash_table_t) (current_index : Z) : Z :=
  size_t (current_index * bucket_size ht).

Definition occupied_flag_of (ht : fixed_hash_table_t) (bucket : Z) : Z :=
  bucket + max_key_length ht + value_size ht.

Definition value_location_of (ht : fixed_hash_table_t) (bucket : Z) : Z :=
  bucket + max_key_length ht.

(** The stores of the update branch of [ht_put] into the bucket at
    [bucket]; [value] is read for [value_size] bytes. *)
Definition ht_store (ht : fixed_hash_table_t) (bucket : Z)
  (key value : list byte) : fixed_hash_table_t :=
  let m1 := store_bytes (memory ht) bucket
              (strncpy key (size_t (max_key_length ht - 1))) in
  let m2 := store8 m1 (bucket + size_t (max_key_length ht - 1)) Byte.x00 in
  let m3 := store_bytes m2 (value_location_of ht bucket)
              (firstn (Z.to_nat (value_size ht)) value) in
  let m4 := store8 m3 (occupied_flag_of ht bucket) Byte.x01 in
  set_memory ht m4.

(** The probing loops: [n] iterations of [for (i = ...; i < table_size;
    i++)] left to run.  [% table_size] with [table_size = 0] is undefined
    in C. *)
Fixpoint ht_put_loop (n : nat) (i : Z) (ht : fixed_hash_table_t)
  (key value : list byte) (index : Z) : bool * fixed_hash_table_t :=
  match n with
  | O => (false, ht)
  | S n' =>
      let current_index := size_t (index + i) mod table_size ht in
      let bucket := bucket_of ht current_index in
      let occupied_flag := occupied_flag_of ht bucket in
      if Byte.eqb (load8 (memory ht) occupied_flag) Byte.x00
         || (strcmp (cstring_at (memory ht) bucket) key =? 0)
      then (true, ht_store ht bucket key value)
      else ht_put_loop n' (i + 1) ht key value index
  end.

Definition ht_put (ht : fixed_hash_table_t) (key value : list byte)
  : bool * fixed_hash_table_t :=
  let index := hash_function key mod table_size ht in
  ht_put_loop (Z.to_nat (table_size ht)) 0 ht key value index.

(** [Some v]: the call returns true and has copied the [value_size] bytes
    [v] to [value]; [None]: it returns false. *)
Fixpoint ht_get_loop (n : nat) (i : Z) (ht : fixed_hash_table_t)
  (key : list byte) (index : Z) : option (list byte) :=
  match n with
  | O => None
  | S n' =>
      let current_index := size_t (index + i) mod table_size ht in
      let bucket := bucket_of ht current_index in
      let occupied_flag := occupied_flag_of ht bucket in
      if Byte.eqb (load8 (memory ht) occupied_flag) Byte.x00 then None
      else if strcmp (cstring_at (memory ht) bucket) key =? 0
      then Some (load_bytes (memory ht) (value_location_of ht bucket)
                   (Z.to_nat (value_size ht)))
      else ht_get_loop n' (i + 1) ht key index
  end.

Definition ht_get (ht : fixed_hash_table_t) (key : list byte)
  : option (list byte) * fixed_hash_table_t :=
  let index := hash_function key mod table_size ht in
  (ht_get_loop (Z.to_nat (table_size ht)) 0 ht key index, ht).

Fixpoint ht_remove_loop (n : nat) (i : Z) (ht : fixed_hash_table_t)
  (key : list byte) (index : Z) : bool * fixed_hash_table_t :=
  match n with
  | O => (false, ht)
  | S n' =>
      let current_index := size_t (index + i) mod table_size ht in
      let bucket := bucket_of ht current_index in
      let occupied_flag := occupied_flag_of ht bucket in
      if Byte.eqb (load8 (memory ht) occupied_flag) Byte.x00 then (false, ht)
      else if strcmp (cstring_at (memory ht) bucket) key =? 0
      then (true, set_memory ht (store8 (memory ht) occupied_flag Byte.x00))
      else ht_remove_loop n' (i + 1) ht key index
  end.

Definition ht_remove (ht : fixed_hash_table_t) (key : list byte)
  : bool * fixed_hash_table_t :=
  let index := hash_function key mod table_size ht in
  ht_remove_loop (Z.to_nat (table_size ht)) 0 ht key index.

(** [ht_get] into the 16-byte scratch array [dummy], the value being
    dropped.  When the key is found the code copies [value_size] bytes into
    [dummy]: with [value_size > 16] the copy overruns the array and the
    behaviour is undefined.  The definition is the call for
    [value_size <= 16], and for any [value_size] when the key is not found
    (nothing is copied then). *)
Definition ht_contains (ht : fixed_hash_table_t) (key : list byte)
  : bool * fixed_hash_table_t :=
  let (r, ht') := ht_get ht key in
  (match r with Some _ => true | None => false end, ht').

(** *** Buckets *)

Definition bucket_flag (ht : fixed_hash_table_t) (c : Z) : byte :=
  load8 (memory ht) (occupied_flag_of ht (bucket_of ht c)).

Definition bucket_key (ht : fixed_hash_table_t) (c : Z) : list byte :=
  cstring_at (memory ht) (bucket_of ht c).

Definition bucket_value (ht : fixed_hash_table_t) (c : Z) : list byte :=
  load_bytes (memory ht) (value_location_of ht (bucket_of ht c))
    (Z.to_nat (value_size ht)).

Definition occupied (ht : fixed_hash_table_t) (c : Z) : bool :=
  negb (Byte.eqb (bucket_flag ht c) Byte.x00).

(** The number of occupied buckets. *)
Definition occupancy (ht : fixed_hash_table_t) : Z :=
  Z.of_nat (length (filter (fun i => occupied ht (Z.of_nat i))
                      (seq 0 (Z.to_nat (table_size ht))))).

(** The tables [ht_init] and [ht_put] produce over a region that holds
    [table_size] buckets: the sizes are consistent and the last byte of
    every key field is NUL, so that the string of a key field ends inside
    the field. *)
Record ht_wf (ht : fixed_hash_table_t) : Prop := {
  wf_table : 0 < table_size ht;
  wf_key : 0 < max_key_length ht;
  wf_value : 0 <= value_size ht;
  wf_bucket : bucket_size ht = max_key_length ht + value_size ht + 1;
  wf_region : table_size ht * bucket_size ht <= Z.of_nat (length (memory ht));
  wf_addr : Z.of_nat (length (memory ht)) < 2 ^ 64;
  wf_term : forall c, 0 <= c < table_size ht ->
      load8 (memory ht) (c * bucket_size ht + max_key_length ht - 1) = Byte.x00
}.

(** The table after [ht_remove] has found its key in bucket [c]: the flag
    of the bucket is cleared and nothing else changes. *)
Definition clear_flag (ht : fixed_hash_table_t) (c : Z) : fixed_hash_table_t :=
  set_memory ht
    (store8 (memory ht)
       (c * bucket_size ht + max_key_length ht + value_size ht) Byte.x00).

(** The bucket index of the [i]-th probe, [current_index] in the loops. *)
Definition probe (ht : fixed_hash_table_t) (index i : Z) : Z :=
  size_t (index + i) mod table_size ht.

(** The test that ends the probing of [ht_put]; [ht_get] and [ht_remove]
    stop at the same bucket, the first that is not occupied or holds the
    key. *)
Definition put_hit (ht : fixed_hash_table_t) (key : list byte) (c : Z) : bool :=
  Byte.eqb (bucket_flag ht c) Byte.x00
  || (strcmp (bucket_key ht c) key =? 0).

(** The first of [i], [i + 1], ..., [n] of them, that satisfies [P]. *)
Fixpoint find_from (P : Z -> bool) (n : nat) (i : Z) : option Z :=
  match n with
  | O => None
  | S n' => if P i then Some i else find_from P n' (i + 1)
  end.

(** *** Callers *)

Inductive ht_op : Type :=
| OpPut (key value : list byte)
| OpGet (key : list byte)
| OpRemove (key : list byte)
| OpContains (key : list byte).

Definition ht_step (ht : fixed_hash_table_t) (op : ht_op)
  : fixed_hash_table_t :=
  match op with
  | OpPut key value => snd (ht_put ht key value)
  | OpGet key => snd (ht_get ht key)
  | OpRemove key => snd (ht_remove ht key)
  | OpContains key => snd (ht_contains ht key)
  end.

Definition ht_run (ht : fixed_hash_table_t) (ops : list ht_op)
  : fixed_hash_table_t :=
  fold_left ht_step ops ht.

(** No two occupied buckets hold equal keys. *)
Definition unique_keys (ht : fixed_hash_table_t) : Prop :=
  forall c1 c2,
    0 <= c1 < table_size ht -> 0 <= c2 < table_size ht ->
    occupied ht c1 = true -> occupied ht c2 = true ->
    bucket_key ht c1 = bucket_key ht c2 -> c1 = c2.

(** The inputs of a call are valid: the key of [ht_put] is a C string
    shorter than [max_key_length], so that it fits the key field with its
    terminator, and its value has [value_size] bytes. *)
Definition op_valid (max_key_length value_size : Z) (op : ht_op) : Prop :=
  match op with
  | OpPut key value =>
      is_cstring key /\ Z.of_nat (length key) < max_key_length /\
      Z.of_nat (length value) = value_size
  | OpGet key => True
  | OpRemove key => True
  | OpContains key => True
  end.

(** The arguments of a call are what the code can read: the key is a C
    string, the value of [ht_put] has [value_size] bytes, and [ht_contains]
    is called on a table whose values fit its 16-byte scratch array. *)
Definition op_args_ok (value_size : Z) (op : ht_op) : Prop :=
  match op with
  | OpPut key value =>
      is_cstring key /\ Z.of_nat (length value) = value_size
  | OpGet key => is_cstring key
  | OpRemove key => is_cstring key
  | OpContains key => is_cstring key /\ value_size <= 16
  end.

(** [ht_get] finds [key]. *)
Definition found (ht : fixed_hash_table_t) (key : list byte) : bool :=
  match fst (ht_get ht key) with Some _ => true | None => false end.

(** No occupied bucket holds [key]. *)
Definition key_absent (ht : fixed_hash_table_t) (key : list byte) : Prop :=
  forall c, 0 <= c < table_size ht ->
    occupied ht c = true -> bucket_key ht c <> key.

(** The same, computed over the buckets with the comparison of the code. *)
Definition absent (ht : fixed_hash_table_t) (key : list byte) : bool :=
  forallb
    (fun i => negb (occupied ht (Z.of_nat i)
                    && (strcmp (bucket_key ht (Z.of_nat i)) key =? 0)))
    (seq 0 (Z.to_nat (table_size ht))).

(** A call that is made in the table [ht] keeps the keys apart:
    [ht_put] has valid inputs and its key is one that [ht_get] finds or
    that no occupied bucket holds (what is left out is the key that sits
    in an occupied bucket behind a bucket that [ht_remove] has cleared);
    [ht_contains] stays within its scratch array. *)
Definition op_guard (ht : fixed_hash_table_t) (op : ht_op) : Prop :=
  match op with
  | OpPut key value =>
      op_valid (max_key_length ht) (value_size ht) (OpPut key value) /\
      (found ht key = true \/ key_absent ht key)
  | OpGet key => True
  | OpRemove key => True
  | OpContains key => value_size ht <= 16 \/ found ht key = false
  end.

(** Every call of [ops], made in turn from [ht] on, is guarded in the table
    it is made in. *)
Fixpoint ops_guard (ht : fixed_hash_table_t) (ops : list ht_op) : Prop :=
  match ops with
  | [] => True
  | op :: ops' => op_guard ht op /\ ops_guard (ht_step ht op) ops'
  end.

End FixedHashTable.

(** * Proofs *)

(** ** Arithmetic of wrapped values *)

Lemma size_t_small z : 0 <= z < 2 ^ 64 -> size_t z = z.
Proof. intros H. unfold size_t. now apply Z.mod_small. Qed.

Lemma size_t_range z : 0 <= size_t z < 2 ^ 64.
Proof. unfold size_t. apply Z.mod_pos_bound. lia. Qed.

Lemma mod_wrap_once n a :
  0 < n -> 0 <= a < 2 * n -> a mod n = if a <? n then a else a - n.
Proof.
  intros Hn Ha. destruct (Z.ltb_spec a n) as [Hlt | Hge].
  - apply Z.mod_small. lia.
  - symmetry. apply (Z.mod_unique a n 1 (a - n)); lia.
Qed.

(** ** Regions *)

Module MemFacts.
Import Mem.

Lemma in_range_true m off :
  in_range m off = true <-> 0 <= off < Z.of_nat (length m).
Proof. unfold in_range. rewrite andb_true_iff, Z.leb_le, Z.ltb_lt. tauto. Qed.

Lemma in_range_false m off :
  in_range m off = false <-> off < 0 \/ Z.of_nat (length m) <= off.
Proof.
  unfold in_range. rewrite andb_false_iff, Z.leb_gt, Z.ltb_ge. tauto.
Qed.

Lemma length_store8 m off b : length (store8 m off b) = length m.
Proof.
  unfold store8. destruct (in_range m off) eqn:E; [| reflexivity].
  apply in_range_true in E.
  rewrite length_app, length_firstn. cbn [length]. rewrite length_skipn. lia.
Qed.

Lemma in_range_store8 m off b i : in_range (store8 m off b) i = in_range m i.
Proof. unfold in_range. now rewrite length_store8. Qed.

Lemma load8_store8_eq m off b :
  in_range m off = true -> load8 (store8 m off b) off = b.
Proof.
  intros E. unfold load8. rewrite in_range_store8, E.
  unfold store8. rewrite E. apply in_range_true in E.
  rewrite app_nth2; rewrite length_firstn; [| lia].
  replace (Z.to_nat off - Nat.min (Z.to_nat off) (length m))%nat with 0%nat by lia.
  reflexivity.
Qed.

Lemma load8_store8_ne m off b i :
  i <> off -> load8 (store8 m off b) i = load8 m i.
Proof.
  intros Hne. unfold load8. rewrite in_range_store8.
  destruct (in_range m i) eqn:Ei; [| reflexivity].
  unfold store8. destruct (in_range m off) eqn:Eo; [| reflexivity].
  apply in_range_true in Ei. apply in_range_true in Eo.
  destruct (Z_lt_dec i off) as [Hlt | Hge].
  - rewrite app_nth1 by (rewrite length_firstn; lia).
    rewrite nth_firstn.
    destruct (Nat.ltb_spec (Z.to_nat i) (Z.to_nat off)); [reflexivity | lia].
  - rewrite app_nth2 by (rewrite length_firstn; lia).
    rewrite length_firstn.
    replace (Z.to_nat i - Nat.min (Z.to_nat off) (length m))%nat
      with (S (Z.to_nat i - S (Z.to_nat off)))%nat by lia.
    cbn [nth]. rewrite nth_skipn. f_equal. lia.
Qed.

Lemma load8_out m off : in_range m off = false -> load8 m off = Byte.x00.
Proof. intros E. unfold load8. now rewrite E. Qed.

Lemma length_store_bytes bs : forall m off,
  length (store_bytes m off bs) = length m.
Proof.
  induction bs as [| b bs IH]; intros m off; cbn [store_bytes]; [reflexivity |].
  now rewrite IH, length_store8.
Qed.

Lemma load8_store_bytes_out bs : forall m off i,
  i < off \/ off + Z.of_nat (length bs) <= i ->
  load8 (store_bytes m off bs) i = load8 m i.
Proof.
  induction bs as [| b bs IH]; intros m off i H; cbn [store_bytes]; [reflexivity |].
  cbn [length] in H. rewrite IH by lia. apply load8_store8_ne. lia.
Qed.

Lemma load8_store_bytes_in bs : forall m off i,
  0 <= off -> off + Z.of_nat (length bs) <= Z.of_nat (length m) ->
  off <= i < off + Z.of_nat (length bs) ->
  load8 (store_bytes m off bs) i = nth (Z.to_nat (i - off)) bs Byte.x00.
Proof.
  induction bs as [| b bs IH]; intros m off i Hoff Hlen Hi; cbn [length] in *; [lia |].
  cbn [store_bytes]. destruct (Z.eq_dec i off) as [-> | Hne].
  - rewrite load8_store_bytes_out by lia.
    rewrite load8_store8_eq by (apply in_range_true; lia).
    now rewrite Z.sub_diag.
  - rewrite IH; rewrite ?length_store8; try lia.
    replace (Z.to_nat (i - off)) with (S (Z.to_nat (i - (off + 1)))) by lia.
    reflexivity.
Qed.

Lemma length_load_bytes n : forall m off, length (load_bytes m off n) = n.
Proof. induction n as [| n IH]; intros; cbn [load_bytes length]; auto. Qed.

Lemma load_bytes_ext n : forall m m' off,
  (forall i, off <= i < off + Z.of_nat n -> load8 m i = load8 m' i) ->
  load_bytes m off n = load_bytes m' off n.
Proof.
  induction n as [| n IH]; intros m m' off H; cbn [load_bytes]; [reflexivity |].
  f_equal.
  - apply H. lia.
  - apply IH. intros i Hi. apply H. lia.
Qed.

Lemma load_bytes_nth n : forall m off bs,
  length bs = n ->
  (forall i, off <= i < off + Z.of_nat n ->
     load8 m i = nth (Z.to_nat (i - off)) bs Byte.x00) ->
  load_bytes m off n = bs.
Proof.
  induction n as [| n IH]; intros m off bs Hlen H.
  - destruct bs; [reflexivity | discriminate].
  - destruct bs as [| b bs]; [discriminate |]. cbn [load_bytes]. f_equal.
    + rewrite H by lia. now rewrite Z.sub_diag.
    + apply IH; [cbn [length] in Hlen; lia |]. intros i Hi. rewrite H by lia.
      replace (Z.to_nat (i - off)) with (S (Z.to_nat (i - (off + 1)))) by lia.
      reflexivity.
Qed.

Lemma load_bytes_store_bytes m off bs :
  0 <= off -> off + Z.of_nat (length bs) <= Z.of_nat (length m) ->
  load_bytes (store_bytes m off bs) off (length bs) = bs.
Proof.
  intros Hoff Hlen. apply load_bytes_nth; [reflexivity |].
  intros i Hi. now apply load8_store_bytes_in.
Qed.

Lemma byte_eqb_spec (x y : byte) : reflect (x = y) (Byte.eqb x y).
Proof.
  destruct (Byte.eqb x y) eqn:E; constructor.
  - now apply Byte.byte_dec_bl.
  - intros ->. rewrite Byte.byte_dec_lb in E; [discriminate | reflexivity].
Qed.

Lemma load8_store8 m off b i :
  load8 (store8 m off b) i
  = if (i =? off) && in_range m off then b else load8 m i.
Proof.
  destruct (Z.eqb_spec i off) as [-> | Hne]; cbn [andb].
  - destruct (in_range m off) eqn:E; [now apply load8_store8_eq |].
    unfold store8. now rewrite E.
  - now apply load8_store8_ne.
Qed.

Lemma load8_store_bytes m off bs i :
  0 <= off -> off + Z.of_nat (length bs) <= Z.of_nat (length m) ->
  load8 (store_bytes m off bs) i
  = if (off <=? i) && (i <? off + Z.of_nat (length bs))
    then nth (Z.to_nat (i - off)) bs Byte.x00 else load8 m i.
Proof.
  intros Hoff Hlen.
  destruct (Z.leb_spec off i); destruct (Z.ltb_spec i (off + Z.of_nat (length bs)));
    cbn [andb].
  - apply load8_store_bytes_in; lia.
  - apply load8_store_bytes_out; lia.
  - apply load8_store_bytes_out; lia.
  - apply load8_store_bytes_out; lia.
Qed.

Lemma skipn_nth_cons {A} (d : A) n : forall l,
  (n < length l)%nat -> skipn n l = nth n l d :: skipn (S n) l.
Proof.
  induction n as [| n IH]; intros [| a l] H; cbn [length] in H; try lia.
  - reflexivity.
  - cbn [skipn nth]. rewrite IH by lia. reflexivity.
Qed.

Lemma cstring_at_unfold m off :
  0 <= off ->
  cstring_at m off
  = if Byte.eqb (load8 m off) Byte.x00 then []
    else load8 m off :: cstring_at m (off + 1).
Proof.
  intros Hoff. unfold cstring_at, load8.
  destruct (in_range m off) eqn:E; [| reflexivity].
  apply in_range_true in E.
  rewrite (skipn_nth_cons Byte.x00) by lia. cbn [cstr].
  destruct (Byte.eqb _ _); [reflexivity |]. f_equal.
  replace (Z.to_nat (off + 1)) with (S (Z.to_nat off)) by lia.
  destruct (in_range m (off + 1)) eqn:E1; [reflexivity |].
  apply in_range_false in E1. rewrite skipn_all2 by lia. reflexivity.
Qed.

Lemma cstr_is_cstring l : is_cstring (cstr l).
Proof.
  induction l as [| c l IH]; cbn [cstr]; [constructor |].
  destruct (byte_eqb_spec c Byte.x00); constructor; assumption.
Qed.

Lemma cstring_at_is_cstring m off : is_cstring (cstring_at m off).
Proof.
  unfold cstring_at. destruct (in_range m off); [apply cstr_is_cstring | constructor].
Qed.

(** The string at [off] depends on the bytes up to its terminator only. *)
Lemma cstring_at_ext (len : nat) : forall m m' off,
  0 <= off ->
  (forall i, off <= i < off + Z.of_nat len -> load8 m i = load8 m' i) ->
  (exists t, off <= t < off + Z.of_nat len /\ load8 m t = Byte.x00) ->
  cstring_at m off = cstring_at m' off.
Proof.
  induction len as [| len IH]; intros m m' off Hoff Hagree [t [Ht Hz]]; [lia |].
  rewrite (cstring_at_unfold m), (cstring_at_unfold m') by lia.
  rewrite <- Hagree by lia.
  destruct (byte_eqb_spec (load8 m off) Byte.x00) as [E | Hne]; [reflexivity |].
  f_equal. apply IH; [lia | intros i Hi; apply Hagree; lia |].
  exists t. split; [| exact Hz].
  destruct (Z.eq_dec t off) as [-> | Hto]; [contradiction | lia].
Qed.

(** The string at [off] is [s] when the characters of [s] are stored there,
    followed by a NUL. *)
Lemma cstring_at_chars s : forall m off,
  0 <= off -> is_cstring s ->
  (forall i, (i < length s)%nat ->
     load8 m (off + Z.of_nat i) = nth i s Byte.x00) ->
  load8 m (off + Z.of_nat (length s)) = Byte.x00 ->
  cstring_at m off = s.
Proof.
  induction s as [| c s IH]; intros m off Hoff Hs Hchars Hnul;
    rewrite cstring_at_unfold by lia.
  - cbn [length] in Hnul. rewrite Z.add_0_r in Hnul. now rewrite Hnul.
  - pose proof (Hchars 0%nat ltac:(cbn; lia)) as H0. cbn in H0.
    rewrite Z.add_0_r in H0. rewrite H0.
    pose proof (Forall_inv Hs) as Hc. pose proof (Forall_inv_tail Hs) as Hs'.
    cbn beta in Hc.
    destruct (byte_eqb_spec c Byte.x00) as [E | _]; [contradiction |].
    f_equal. apply IH; [lia | exact Hs' | |].
    + intros i Hi. specialize (Hchars (S i) ltac:(cbn; lia)).
      cbn [nth] in Hchars. rewrite <- Hchars. f_equal. lia.
    + rewrite <- Hnul. f_equal. cbn [length]. lia.
Qed.

End MemFacts.

(** ** circular_buffer.h: the buffer is a FIFO queue *)

Module CircularBufferFacts.
Import Mem MemFacts CircularBuffer.

Lemma length_cb_slice buf sz n : forall pos,
  length (cb_slice buf sz pos n) = n.
Proof. induction n as [| n IH]; intros; cbn [cb_slice length]; auto. Qed.

Lemma cb_slice_snoc buf sz n : forall pos,
  0 < sz -> 0 <= pos < sz ->
  cb_slice buf sz pos (S n)
  = cb_slice buf sz pos n ++ [load8 buf ((pos + Z.of_nat n) mod sz)].
Proof.
  induction n as [| n IH]; intros pos Hsz Hpos.
  - cbn [cb_slice app]. rewrite Z.add_0_r, Z.mod_small by lia. reflexivity.
  - change (cb_slice buf sz pos (S (S n)))
      with (load8 buf pos :: cb_slice buf sz ((pos + 1) mod sz) (S n)).
    assert (Hp : 0 <= (pos + 1) mod sz < sz) by (apply Z.mod_pos_bound; lia).
    rewrite (IH _ Hsz Hp).
    cbn [cb_slice app]. do 2 f_equal.
    rewrite Z.add_mod_idemp_l by lia. do 3 f_equal. lia.
Qed.

Lemma cb_slice_store8 buf sz b n : forall pos d,
  0 < sz -> 0 <= pos < sz -> Z.of_nat n <= d < sz ->
  cb_slice (store8 buf ((pos + d) mod sz) b) sz pos n = cb_slice buf sz pos n.
Proof.
  induction n as [| n IH]; intros pos d Hsz Hpos Hd; cbn [cb_slice]; [reflexivity |].
  f_equal.
  - apply load8_store8_ne. rewrite mod_wrap_once by lia.
    destruct (pos + d <? sz); lia.
  - replace ((pos + d) mod sz) with (((pos + 1) mod sz + (d - 1)) mod sz).
    + apply IH; try lia. apply Z.mod_pos_bound. lia.
    + rewrite Z.add_mod_idemp_l by lia. f_equal. lia.
Qed.

Lemma cb_init_wf buf sz :
  0 < sz < 2 ^ 64 -> sz <= Z.of_nat (length buf) -> cb_wf (cb_init buf sz).
Proof.
  intros Hsz Hlen. constructor; cbn; lia.
Qed.

Lemma length_cb_contents cb :
  0 <= count cb -> Z.of_nat (length (cb_contents cb)) = count cb.
Proof. intros H. unfold cb_contents. rewrite length_cb_slice. lia. Qed.

(** A write to a queue that is not full succeeds and appends the byte. *)
Lemma cb_write_spec cb d :
  cb_wf cb -> count cb < size cb ->
  fst (cb_write cb d) = true /\
  cb_wf (snd (cb_write cb d)) /\
  cb_contents (snd (cb_write cb d)) = cb_contents cb ++ [d].
Proof.
  intros [Hsz Hbuf Htl Hcnt Hhd] Hlt.
  unfold cb_write, cb_is_full.
  destruct (Z.eqb_spec (count cb) (size cb)) as [E | _]; [lia |].
  cbn [fst snd].
  assert (Hh : 0 <= head cb < size cb) by (rewrite Hhd; apply Z.mod_pos_bound; lia).
  split; [reflexivity |]. split.
  - constructor; cbn [buffer size head tail count]; try lia.
    + now rewrite length_store8.
    + rewrite size_t_small; lia.
    + rewrite !size_t_small by lia. rewrite Hhd.
      rewrite Z.add_mod_idemp_l by lia. f_equal. lia.
  - unfold cb_contents. cbn [buffer size head tail count].
    rewrite size_t_small by lia.
    replace (Z.to_nat (count cb + 1)) with (S (Z.to_nat (count cb))) by lia.
    rewrite cb_slice_snoc by lia.
    rewrite Hhd at 1. rewrite cb_slice_store8 by lia.
    f_equal. f_equal. rewrite Z2Nat.id by lia. rewrite <- Hhd.
    apply load8_store8_eq. apply in_range_true. lia.
Qed.

(** A read from a queue that is not empty returns and removes its oldest
    byte. *)
Lemma cb_read_spec cb d rest :
  cb_wf cb -> cb_contents cb = d :: rest ->
  fst (cb_read cb) = Some d /\
  cb_wf (snd (cb_read cb)) /\
  cb_contents (snd (cb_read cb)) = rest.
Proof.
  intros [Hsz Hbuf Htl Hcnt Hhd] Hc.
  assert (Hpos : 0 < count cb).
  { pose proof (length_cb_contents cb (proj1 Hcnt)) as Hl.
    rewrite Hc in Hl. cbn [length] in Hl. lia. }
  unfold cb_read, cb_is_empty.
  destruct (Z.eqb_spec (count cb) 0) as [E | _]; [lia |].
  cbn [fst snd]. unfold cb_contents in *. cbn [buffer size head tail count].
  replace (Z.to_nat (count cb)) with (S (Z.to_nat (count cb - 1))) in Hc by lia.
  cbn [cb_slice] in Hc. injection Hc as Hd Hrest.
  rewrite !size_t_small by lia.
  split; [now rewrite Hd |]. split; [| exact Hrest].
  constructor; cbn [buffer size head tail count]; try lia.
  - apply Z.mod_pos_bound. lia.
  - rewrite Hhd. rewrite Z.add_mod_idemp_l by lia. f_equal. lia.
Qed.

Lemma cb_write_all_spec ws : forall cb,
  cb_wf cb -> count cb + Z.of_nat (length ws) <= size cb ->
  fst (cb_write_all cb ws) = repeat true (length ws) /\
  cb_wf (snd (cb_write_all cb ws)) /\
  cb_contents (snd (cb_write_all cb ws)) = cb_contents cb ++ ws.
Proof.
  induction ws as [| w ws IH]; intros cb Hwf Hroom.
  - cbn. rewrite app_nil_r. auto.
  - cbn [length] in Hroom.
    destruct (cb_write_spec cb w Hwf ltac:(lia)) as (Hok & Hwf1 & Hc1).
    assert (Hcount : count (snd (cb_write cb w)) = count cb + 1).
    { pose proof (length_cb_contents _ (proj1 (wf_count _ Hwf1))) as H1.
      pose proof (length_cb_contents _ (proj1 (wf_count _ Hwf))) as H0.
      rewrite Hc1, length_app in H1. cbn [length] in H1. lia. }
    assert (Hsize : size (snd (cb_write cb w)) = size cb).
    { unfold cb_write. destruct (cb_is_full cb); reflexivity. }
    cbn [cb_write_all]. destruct (cb_write cb w) as [ok cb1]. cbn [fst snd] in *.
    specialize (IH cb1 Hwf1 ltac:(lia)).
    destruct (cb_write_all cb1 ws) as [oks cb2]. cbn [fst snd length repeat] in *.
    destruct IH as (IH1 & IH2 & IH3). subst ok. rewrite IH1, IH3, Hc1.
    rewrite <- app_assoc. auto.
Qed.

Lemma cb_read_n_spec ds : forall cb rest,
  cb_wf cb -> cb_contents cb = ds ++ rest ->
  fst (cb_read_n cb (length ds)) = map Some ds /\
  cb_wf (snd (cb_read_n cb (length ds))) /\
  cb_contents (snd (cb_read_n cb (length ds))) = rest.
Proof.
  induction ds as [| d ds IH]; intros cb rest Hwf Hc.
  - cbn. auto.
  - cbn [length cb_read_n].
    destruct (cb_read_spec cb d (ds ++ rest) Hwf Hc) as (Hr & Hwf1 & Hc1).
    destruct (cb_read cb) as [r cb1]. cbn [fst snd] in *.
    specialize (IH cb1 rest Hwf1 Hc1).
    destruct (cb_read_n cb1 (length ds)) as [rs cb2]. cbn [fst snd map] in *.
    destruct IH as (IH1 & IH2 & IH3). subst r. rewrite IH1. auto.
Qed.

Lemma cb_step_inv cb ws rs op :
  cb_wf cb -> rs ++ cb_contents cb = ws ->
  cb_wf (fst (cb_step (cb, (ws, rs)) op)) /\
  snd (snd (cb_step (cb, (ws, rs)) op))
  ++ cb_contents (fst (cb_step (cb, (ws, rs)) op))
  = fst (snd (cb_step (cb, (ws, rs)) op)).
Proof.
  intros Hwf Hinv. destruct op as [data |]; cbn [cb_step].
  - destruct (Z.eq_dec (count cb) (size cb)) as [Hfull | Hroom].
    + unfold cb_write, cb_is_full. rewrite Hfull, Z.eqb_refl. cbn. auto.
    + pose proof (wf_count _ Hwf).
      destruct (cb_write_spec cb data Hwf ltac:(lia)) as (Hok & Hwf1 & Hc).
      destruct (cb_write cb data) as [ok cb1]. cbn [fst snd] in *. subst ok.
      split; [exact Hwf1 |]. rewrite Hc, app_assoc. now rewrite Hinv.
  - destruct (cb_contents cb) as [| d rest] eqn:Hc.
    + assert (Hz : count cb = 0).
      { pose proof (length_cb_contents cb (proj1 (wf_count _ Hwf))) as Hl.
        rewrite Hc in Hl. cbn in Hl. lia. }
      unfold cb_read, cb_is_empty. rewrite Hz. cbn [Z.eqb fst snd].
      rewrite Hc. auto.
    + destruct (cb_read_spec cb d rest Hwf Hc) as (Hr & Hwf1 & Hc1).
      destruct (cb_read cb) as [r cb1]. cbn [fst snd] in *. subst r.
      split; [exact Hwf1 |]. rewrite Hc1, <- app_assoc. exact Hinv.
Qed.

Lemma cb_run_inv ops : forall cb ws rs,
  cb_wf cb -> rs ++ cb_contents cb = ws ->
  cb_wf (fst (cb_run (cb, (ws, rs)) ops)) /\
  snd (snd (cb_run (cb, (ws, rs)) ops))
  ++ cb_contents (fst (cb_run (cb, (ws, rs)) ops))
  = fst (snd (cb_run (cb, (ws, rs)) ops)).
Proof.
  induction ops as [| op ops IH]; intros cb ws rs Hwf Hinv; [now split |].
  cbn [cb_run fold_left]. change (fold_left cb_step ops ?s) with (cb_run s ops).
  destruct (cb_step_inv cb ws rs op Hwf Hinv) as [Hwf1 Hinv1].
  destruct (cb_step (cb, (ws, rs)) op) as [cb1 [ws1 rs1]].
  now apply IH.
Qed.

(** X1. Strict FIFO order under any interleaving of writes and reads on a
    freshly initialized buffer: the bytes returned by the successful reads,
    followed by the bytes still queued, are the bytes of the successful
    writes in the order they were written.  The N-th successful read thus
    returns the byte of the N-th successful write. *)
Theorem cb_fifo_order buf sz ops :
  1 <= sz < 2 ^ 64 ->
  sz <= Z.of_nat (length buf) ->
  snd (snd (cb_run (cb_init buf sz, ([], [])) ops))
  ++ cb_contents (fst (cb_run (cb_init buf sz, ([], [])) ops))
  = fst (snd (cb_run (cb_init buf sz, ([], [])) ops)).
Proof.
  intros Hsz Hbuf. apply cb_run_inv; [apply cb_init_wf; lia | reflexivity].
Qed.

(** C1. FIFO law: for a buffer of capacity [size >= 1] over a region of at
    least [size] bytes, the writes [ws] (no more than [size] of them) to the
    freshly initialized buffer all succeed, and the same number of reads
    that follow all succeed and return the bytes of [ws] in the order they
    were written. *)
Theorem cb_fifo_law buf sz ws :
  1 <= sz < 2 ^ 64 ->
  sz <= Z.of_nat (length buf) ->
  Z.of_nat (length ws) <= sz ->
  fst (cb_write_all (cb_init buf sz) ws) = repeat true (length ws) /\
  fst (cb_read_n (snd (cb_write_all (cb_init buf sz) ws)) (length ws))
  = map Some ws.
Proof.
  intros Hsz Hbuf Hn.
  assert (Hwf : cb_wf (cb_init buf sz)) by (apply cb_init_wf; lia).
  destruct (cb_write_all_spec ws (cb_init buf sz) Hwf) as (Hoks & Hwf1 & Hc).
  { cbn. lia. }
  split; [exact Hoks |].
  apply (cb_read_n_spec ws _ []); [exact Hwf1 |].
  rewrite Hc. cbn. now rewrite app_nil_r.
Qed.

Lemma cb_fifo_law_witness :
  (1 <= 5 < 2 ^ 64 /\
   5 <= Z.of_nat (length (repeat Byte.x00 5)) /\
   Z.of_nat (length [Byte.x2a; Byte.x64]) <= 5) /\
  fst (cb_write_all (cb_init (repeat Byte.x00 5) 5) [Byte.x2a; Byte.x64])
  = repeat true (length [Byte.x2a; Byte.x64]) /\
  fst (cb_read_n
         (snd (cb_write_all (cb_init (repeat Byte.x00 5) 5)
                 [Byte.x2a; Byte.x64]))
         (length [Byte.x2a; Byte.x64]))
  = map Some [Byte.x2a; Byte.x64].
Proof.
  split; [cbn; lia |].
  apply (cb_fifo_law (repeat Byte.x00 5) 5 [Byte.x2a; Byte.x64]); cbn; lia.
Defined.

(** *** Counters, bounds and the full buffer *)

Lemma cb_step_size cb ws rs op :
  size (fst (cb_step (cb, (ws, rs)) op)) = size cb /\
  length (buffer (fst (cb_step (cb, (ws, rs)) op))) = length (buffer cb).
Proof.
  destruct op as [data |]; cbn [cb_step].
  - unfold cb_write. destruct (cb_is_full cb); cbn; [auto |].
    now rewrite length_store8.
  - unfold cb_read. destruct (cb_is_empty cb); cbn; auto.
Qed.

Lemma cb_run_size ops : forall cb ws rs,
  size (fst (cb_run (cb, (ws, rs)) ops)) = size cb /\
  length (buffer (fst (cb_run (cb, (ws, rs)) ops))) = length (buffer cb).
Proof.
  induction ops as [| op ops IH]; intros cb ws rs; [now split |].
  cbn [cb_run fold_left]. change (fold_left cb_step ops ?s) with (cb_run s ops).
  destruct (cb_step_size cb ws rs op) as [H1 H2].
  destruct (cb_step (cb, (ws, rs)) op) as [cb1 [ws1 rs1]]. cbn [fst] in *.
  destruct (IH cb1 ws1 rs1) as [H3 H4]. split; congruence.
Qed.

(** The reachable states: what [cb_init] and any writes and reads give. *)
Lemma cb_run_reach buf sz ops :
  1 <= sz < 2 ^ 64 -> sz <= Z.of_nat (length buf) ->
  cb_wf (fst (cb_run (cb_init buf sz, ([], [])) ops)) /\
  size (fst (cb_run (cb_init buf sz, ([], [])) ops)) = sz /\
  length (buffer (fst (cb_run (cb_init buf sz, ([], [])) ops))) = length buf /\
  Z.of_nat (length (fst (snd (cb_run (cb_init buf sz, ([], [])) ops))))
  = Z.of_nat (length (snd (snd (cb_run (cb_init buf sz, ([], [])) ops))))
    + count (fst (cb_run (cb_init buf sz, ([], [])) ops)).
Proof.
  intros Hsz Hbuf.
  destruct (cb_run_inv ops (cb_init buf sz) [] [])
    as [Hwf Hlog]; [apply cb_init_wf; lia | reflexivity |].
  destruct (cb_run_size ops (cb_init buf sz) [] []) as [Hs Hl].
  split; [exact Hwf |]. split; [exact Hs |]. split; [exact Hl |].
  rewrite <- Hlog, length_app, Nat2Z.inj_add.
  rewrite (length_cb_contents _ (proj1 (wf_count _ Hwf))). reflexivity.
Qed.

(** X2. After any writes and reads on a freshly initialized buffer,
    [cb_data_count] is the number of successful writes less the number of
    successful reads, [cb_available_space] is the capacity less that
    number, and [cb_is_empty] and [cb_is_full] hold exactly when it is 0
    and the capacity. *)
Theorem cb_counters buf sz ops :
  1 <= sz < 2 ^ 64 -> sz <= Z.of_nat (length buf) ->
  let cb := fst (cb_run (cb_init buf sz, ([], [])) ops) in
  let queued :=
    Z.of_nat (length (fst (snd (cb_run (cb_init buf sz, ([], [])) ops))))
    - Z.of_nat (length (snd (snd (cb_run (cb_init buf sz, ([], [])) ops)))) in
  cb_data_count cb = queued /\
  cb_available_space cb = sz - queued /\
  cb_is_empty cb = (queued =? 0) /\
  cb_is_full cb = (queued =? sz) /\
  0 <= queued <= sz.
Proof.
  intros Hsz Hbuf. cbv zeta.
  destruct (cb_run_reach buf sz ops Hsz Hbuf) as (Hwf & Hs & _ & Hlog).
  pose proof (wf_count _ Hwf) as Hc. rewrite Hs in Hc.
  rewrite Hlog.
  set (cb := fst (cb_run (cb_init buf sz, ([], [])) ops)) in *.
  replace (Z.of_nat (length (snd (snd (cb_run (cb_init buf sz, ([], [])) ops))))
           + count cb
           - Z.of_nat (length (snd (snd (cb_run (cb_init buf sz, ([], [])) ops)))))
    with (count cb) by lia.
  unfold cb_data_count, cb_available_space, cb_is_empty, cb_is_full.
  rewrite Hs. rewrite size_t_small by lia. repeat split; lia.
Qed.

(** X3. In every reachable state the cursors are below the capacity, the
    count is at most the capacity, and the capacity and the length of the
    region are those given to [cb_init]. *)
Theorem cb_cursor_bounds buf sz ops :
  1 <= sz < 2 ^ 64 -> sz <= Z.of_nat (length buf) ->
  let cb := fst (cb_run (cb_init buf sz, ([], [])) ops) in
  0 <= head cb < sz /\ 0 <= tail cb < sz /\ 0 <= count cb <= sz /\
  size cb = sz /\ length (buffer cb) = length buf.
Proof.
  intros Hsz Hbuf. cbv zeta.
  destruct (cb_run_reach buf sz ops Hsz Hbuf) as (Hwf & Hs & Hl & _).
  destruct Hwf as [H1 H2 H3 H4 H5]. rewrite Hs in *.
  repeat split; try lia; try assumption.
  - rewrite H5. apply Z.mod_pos_bound. lia.
  - rewrite H5. apply Z.mod_pos_bound. lia.
Qed.

(** X4. A full buffer refuses a write; after one read the write succeeds,
    the buffer is full again, and it holds its former bytes without the
    oldest, then the new byte. *)
Theorem cb_full_then_read cb d :
  cb_wf cb -> cb_is_full cb = true ->
  fst (cb_write cb d) = false /\
  fst (cb_read cb) = Some (hd Byte.x00 (cb_contents cb)) /\
  fst (cb_write (snd (cb_read cb)) d) = true /\
  cb_is_full (snd (cb_write (snd (cb_read cb)) d)) = true /\
  cb_contents (snd (cb_write (snd (cb_read cb)) d))
  = tl (cb_contents cb) ++ [d].
Proof.
  intros Hwf Hfull. pose proof Hwf as [Hsz Hbuf Htl Hcnt Hhd].
  unfold cb_is_full in Hfull. apply Z.eqb_eq in Hfull.
  split; [unfold cb_write, cb_is_full; now rewrite Hfull, Z.eqb_refl |].
  pose proof (length_cb_contents cb (proj1 Hcnt)) as Hlen.
  destruct (cb_contents cb) as [| x rest] eqn:Hc; [cbn in Hlen; lia |].
  destruct (cb_read_spec cb x rest Hwf Hc) as (Hr & Hwf1 & Hc1).
  split; [exact Hr |]. cbn [tl].
  assert (Hs1 : size (snd (cb_read cb)) = size cb)
    by (unfold cb_read; destruct (cb_is_empty cb); reflexivity).
  pose proof (length_cb_contents _ (proj1 (wf_count _ Hwf1))) as Hlen1.
  rewrite Hc1 in Hlen1. cbn [length] in Hlen.
  destruct (cb_write_spec (snd (cb_read cb)) d Hwf1 ltac:(lia))
    as (Hok & Hwf2 & Hc2).
  split; [exact Hok |]. split; [| now rewrite Hc2, Hc1].
  pose proof (length_cb_contents _ (proj1 (wf_count _ Hwf2))) as Hlen2.
  rewrite Hc2, Hc1, length_app in Hlen2. cbn [length] in Hlen2.
  assert (Hs2 : size (snd (cb_write (snd (cb_read cb)) d)) = size cb).
  { unfold cb_write. destruct (cb_is_full (snd (cb_read cb))); cbn; auto. }
  unfold cb_is_full. rewrite Hs2. apply Z.eqb_eq. lia.
Qed.

Lemma cb_fifo_order_witness :
  (1 <= 2 < 2 ^ 64 /\ 2 <= Z.of_nat (length [Byte.x00; Byte.x00])) /\
  snd (snd (cb_run (cb_init [Byte.x00; Byte.x00] 2, ([], []))
              [OpWrite Byte.x01; OpWrite Byte.x02; OpWrite Byte.x03; OpRead;
               OpWrite Byte.x04; OpRead; OpRead; OpRead]))
  ++ cb_contents
       (fst (cb_run (cb_init [Byte.x00; Byte.x00] 2, ([], []))
               [OpWrite Byte.x01; OpWrite Byte.x02; OpWrite Byte.x03; OpRead;
                OpWrite Byte.x04; OpRead; OpRead; OpRead]))
  = fst (snd (cb_run (cb_init [Byte.x00; Byte.x00] 2, ([], []))
                [OpWrite Byte.x01; OpWrite Byte.x02; OpWrite Byte.x03; OpRead;
                 OpWrite Byte.x04; OpRead; OpRead; OpRead])).
Proof.
  split; [cbn; lia |]. apply cb_fifo_order; cbn; lia.
Defined.

Lemma cb_counters_witness :
  (1 <= 2 < 2 ^ 64 /\ 2 <= Z.of_nat (length [Byte.x00; Byte.x00])) /\
  cb_data_count
    (fst (cb_run (cb_init [Byte.x00; Byte.x00] 2, ([], []))
            [OpWrite Byte.x01; OpWrite Byte.x02; OpWrite Byte.x03; OpRead]))
  = 1.
Proof.
  split; [cbn; lia |].
  exact (proj1 (cb_counters [Byte.x00; Byte.x00] 2
                  [OpWrite Byte.x01; OpWrite Byte.x02; OpWrite Byte.x03; OpRead]
                  ltac:(lia) ltac:(cbn; lia))).
Defined.

Lemma cb_cursor_bounds_witness :
  (1 <= 2 < 2 ^ 64 /\ 2 <= Z.of_nat (length [Byte.x00; Byte.x00])) /\
  0 <= head (fst (cb_run (cb_init [Byte.x00; Byte.x00] 2, ([], []))
                    [OpWrite Byte.x01; OpWrite Byte.x02; OpRead])) < 2.
Proof.
  split; [cbn; lia |].
  exact (proj1 (cb_cursor_bounds [Byte.x00; Byte.x00] 2
                  [OpWrite Byte.x01; OpWrite Byte.x02; OpRead]
                  ltac:(lia) ltac:(cbn; lia))).
Defined.

Lemma cb_full_then_read_witness :
  (cb_wf (snd (cb_write_all (cb_init [Byte.x00; Byte.x00] 2)
                 [Byte.x01; Byte.x02])) /\
   cb_is_full (snd (cb_write_all (cb_init [Byte.x00; Byte.x00] 2)
                      [Byte.x01; Byte.x02])) = true) /\
  fst (cb_write (snd (cb_write_all (cb_init [Byte.x00; Byte.x00] 2)
                        [Byte.x01; Byte.x02])) Byte.x03) = false.
Proof.
  assert (Hwf : cb_wf (snd (cb_write_all (cb_init [Byte.x00; Byte.x00] 2)
                               [Byte.x01; Byte.x02]))).
  { apply cb_write_all_spec; [apply cb_init_wf; cbn; lia | cbn; lia]. }
  split; [split; [exact Hwf | reflexivity] |].
  exact (proj1 (cb_full_then_read _ Byte.x03 Hwf eq_refl)).
Defined.

End CircularBufferFacts.

(** ** stack_allocator.h: allocation and live handles *)

Module StackAllocatorFacts.
Import StackAllocator.

(** [stack_alloc] when [top + bytes] does not wrap: it fails exactly when
    [top + bytes > size], and otherwise returns the address at offset [top]
    and moves [top] up by [bytes]. *)
Lemma stack_alloc_no_wrap sa bytes :
  0 <= top sa -> 0 <= bytes -> top sa + bytes < 2 ^ 64 ->
  stack_alloc sa bytes
  = if top sa + bytes >? size sa then (NULL, sa)
    else (memory sa + top sa,
          {| memory := memory sa; size := size sa; top := top sa + bytes |}).
Proof.
  intros Ht Hb Hlt. unfold stack_alloc. rewrite size_t_small by lia.
  reflexivity.
Qed.

(** C5, at an input where the claim fails.  The allocator has [size = 100]
    and [top = 1] after one allocation of a byte; a request of [SIZE_MAX]
    bytes has [top + bytes = 2^64 > size], yet the call returns the address
    at offset 1 and leaves [top = 0]: the sum wrapped to 0. *)
Theorem stack_alloc_wraps :
  let sa := snd (stack_alloc (stack_init 4096 100) 1) in
  top sa = 1 /\ size sa = 100 /\
  top sa + SIZE_MAX > size sa /\
  stack_alloc sa SIZE_MAX
  = (4096 + 1, {| memory := 4096; size := 100; top := 0 |}).
Proof. vm_compute. repeat split. Qed.

(** A wrap of [top + bytes] also lets live handles overlap: after
    allocations of 1, [SIZE_MAX] and 10 bytes with no [stack_free_to] or
    [stack_reset], the handles of the first and the third start at the same
    address. *)
Example stack_wrap_overlap :
  snd (stack_run (stack_init 4096 100, [])
         [OpAlloc 1; OpAlloc SIZE_MAX; OpAlloc 10])
  = [(4096, 10); (4097, SIZE_MAX); (4096, 1)] /\
  overlap (4096, 10) (4096, 1) = true.
Proof. vm_compute. split; reflexivity. Qed.

(** C6, as stated, fails: [stack_free_to] takes any pointer.  The handles
    [h1] and [h2] of two allocations of 10 bytes are rewound with
    [stack_free_to h1]; an allocation of 15 bytes then returns the offsets
    0 to 15.  [stack_free_to h2], given the stale handle [h2], moves [top]
    to offset 10 inside that allocation, and the next allocation of 5 bytes
    overlaps it while both are live. *)
Lemma stack_stale_handle_overlap :
  snd (stack_run (stack_init 4096 100, [])
         [OpAlloc 10; OpAlloc 10; OpFreeTo 4096; OpAlloc 15;
          OpFreeTo 4106; OpAlloc 5])
  = [(4106, 5); (4096, 15)] /\
  ~ ForallOrdPairs (fun h1 h2 => overlap h1 h2 = false)
      (snd (stack_run (stack_init 4096 100, [])
              [OpAlloc 10; OpAlloc 10; OpFreeTo 4096; OpAlloc 15;
               OpFreeTo 4106; OpAlloc 5])).
Proof.
  split; [vm_compute; reflexivity |].
  intros H. inversion H as [| a l Ha Hl E]; subst.
  inversion Ha as [| x l' Hx Hl' E']; subst.
  vm_compute in Hx. discriminate.
Qed.

(** *** Live handles are disjoint when no request wraps *)

Lemma ForallOrdPairs_filter {A} (R : A -> A -> Prop) f (l : list A) :
  ForallOrdPairs R l -> ForallOrdPairs R (filter f l).
Proof.
  induction 1 as [| a l Ha Hl IH]; cbn [filter]; [constructor |].
  destruct (f a); [| exact IH].
  constructor; [| exact IH].
  rewrite Forall_forall in *. intros x Hx. apply filter_In in Hx.
  apply Ha. tauto.
Qed.

Lemma stack_init_inv memory size :
  0 < memory -> 0 <= size < 2 ^ 64 -> stack_inv (stack_init memory size, []).
Proof. intros Hm Hs. constructor; cbn; try lia; constructor. Qed.

Lemma stack_step_inv st op :
  stack_inv st -> op_ok st op -> stack_inv (stack_step st op).
Proof.
  destruct st as [sa live]. intros [Ht Hs Hm Hl Ho] Hok. cbn [fst snd] in *.
  destruct op as [bytes | ptr |]; cbn [stack_step op_ok fst snd] in *.
  - destruct Hok as [Hb Hlt].
    rewrite stack_alloc_no_wrap by lia.
    destruct (Z.gtb_spec (top sa + bytes) (size sa)) as [Hgt | Hle].
    + cbn. constructor; auto.
    + destruct (Z.eqb_spec (memory sa + top sa) NULL) as [E | _];
        [unfold NULL in E; lia |].
      constructor; cbn [fst snd memory size top]; try lia.
      * constructor; [cbn; lia |].
        eapply Forall_impl; [| exact Hl]. cbn. intros h Hh. lia.
      * constructor; [| exact Ho].
        eapply Forall_impl; [| exact Hl]. unfold above. cbn. intros h Hh. lia.
  - destruct Hok as [bytes Hin].
    rewrite Forall_forall in Hl. pose proof (Hl _ Hin) as Hp. cbn in Hp.
    assert (Htop : size_t (ptr - memory sa) = ptr - memory sa)
      by (apply size_t_small; lia).
    constructor; cbn [fst snd memory size top stack_free_to];
      rewrite ?Htop; try lia.
    + apply Forall_forall. intros h Hh. apply filter_In in Hh.
      destruct Hh as [Hh Hlt]. apply Z.ltb_lt in Hlt.
      pose proof (Hl _ Hh) as Hb.
      destruct (ForallOrdPairs_In Ho _ _ Hh Hin) as [E | [Hab | Hab]];
        unfold above in *; cbn [fst snd] in *.
      * subst h. cbn in Hlt. lia.
      * lia.
      * lia.
    + now apply ForallOrdPairs_filter.
  - constructor; cbn; try lia; constructor.
Qed.

Lemma stack_run_inv ops : forall st,
  stack_inv st -> ops_ok st ops -> stack_inv (stack_run st ops).
Proof.
  induction ops as [| op ops IH]; intros st Hinv Hok; [exact Hinv |].
  destruct Hok as [Hop Hops]. cbn [stack_run fold_left].
  apply IH; [now apply stack_step_inv | exact Hops].
Qed.

Lemma above_disjoint h1 h2 : above h1 h2 -> overlap h1 h2 = false.
Proof. unfold above, overlap. intros H. apply Z.ltb_ge. lia. Qed.

(** C6, as amended.  After any sequence of operations on a freshly
    initialized allocator over a region at a non-null address, in which
    every [stack_free_to] is given a handle that is live and every
    allocation request satisfies [size + bytes < 2^64] (so that
    [top + bytes] does not wrap), no two live handles overlap. *)
Theorem stack_live_disjoint memory size ops :
  0 < memory -> 0 <= size < 2 ^ 64 ->
  ops_ok (stack_init memory size, []) ops ->
  ForallOrdPairs (fun h1 h2 => overlap h1 h2 = false)
    (snd (stack_run (stack_init memory size, []) ops)).
Proof.
  intros Hm Hs Hok.
  pose proof (stack_run_inv ops _ (stack_init_inv memory size Hm Hs) Hok) as Hinv.
  destruct Hinv as [_ _ _ _ Ho].
  induction Ho as [| a l Ha Hl IH]; constructor; [| exact IH].
  eapply Forall_impl; [| exact Ha]. intros h Hh. now apply above_disjoint.
Qed.

Lemma stack_live_disjoint_witness :
  (0 < 4096 /\ 0 <= 100 < 2 ^ 64 /\
   ops_ok (stack_init 4096 100, [])
     [OpAlloc 20; OpAlloc 30; OpFreeTo 4116; OpAlloc 50]) /\
  ForallOrdPairs (fun h1 h2 => overlap h1 h2 = false)
    (snd (stack_run (stack_init 4096 100, [])
            [OpAlloc 20; OpAlloc 30; OpFreeTo 4116; OpAlloc 50])).
Proof.
  assert (Hok : ops_ok (stack_init 4096 100, [])
                  [OpAlloc 20; OpAlloc 30; OpFreeTo 4116; OpAlloc 50]).
  { cbn. repeat split; try lia. exists 30. now left. }
  split; [split; [lia |]; split; [lia | exact Hok] |].
  apply (stack_live_disjoint 4096 100); [lia | lia | exact Hok].
Defined.

(** *** Rewinding, resetting and the bounds of the region *)

(** X5. [stack_free_to] with the pointer a successful [stack_alloc] has
    just returned gives back the allocator as it was before the call (the
    cursor [memory + top] being an address, above [NULL] and below
    [2 ^ 64]). *)
Theorem stack_alloc_free_to sa bytes :
  0 < memory sa -> 0 <= top sa -> memory sa + top sa < 2 ^ 64 ->
  fst (stack_alloc sa bytes) <> NULL ->
  stack_free_to (snd (stack_alloc sa bytes)) (fst (stack_alloc sa bytes)) = sa.
Proof.
  intros Hm Ht Hp. unfold stack_alloc.
  destruct (size_t (top sa + bytes) >? size sa); cbn [fst snd];
    [intros H; now contradiction H |].
  intros _. unfold stack_free_to. cbn [memory size top].
  replace (memory sa + top sa - memory sa) with (top sa) by lia.
  rewrite size_t_small by lia. now destruct sa.
Qed.

Lemma stack_alloc_free_to_witness :
  (0 < memory (snd (stack_alloc (stack_init 4096 100) 20)) /\
   0 <= top (snd (stack_alloc (stack_init 4096 100) 20)) /\
   memory (snd (stack_alloc (stack_init 4096 100) 20))
   + top (snd (stack_alloc (stack_init 4096 100) 20)) < 2 ^ 64 /\
   fst (stack_alloc (snd (stack_alloc (stack_init 4096 100) 20)) 30) <> NULL) /\
  stack_free_to
    (snd (stack_alloc (snd (stack_alloc (stack_init 4096 100) 20)) 30))
    (fst (stack_alloc (snd (stack_alloc (stack_init 4096 100) 20)) 30))
  = snd (stack_alloc (stack_init 4096 100) 20).
Proof.
  assert (H0 : 0 < memory (snd (stack_alloc (stack_init 4096 100) 20)))
    by (cbn; lia).
  assert (H1 : 0 <= top (snd (stack_alloc (stack_init 4096 100) 20)))
    by (cbn; lia).
  assert (H2 : memory (snd (stack_alloc (stack_init 4096 100) 20))
               + top (snd (stack_alloc (stack_init 4096 100) 20)) < 2 ^ 64)
    by (cbn; lia).
  assert (H3 : fst (stack_alloc (snd (stack_alloc (stack_init 4096 100) 20)) 30)
               <> NULL) by discriminate.
  split; [exact (conj H0 (conj H1 (conj H2 H3))) |].
  exact (stack_alloc_free_to _ 30 H0 H1 H2 H3).
Defined.

Lemma stack_step_fields st op :
  memory (fst (stack_step st op)) = memory (fst st) /\
  size (fst (stack_step st op)) = size (fst st).
Proof.
  destruct st as [sa live]. destruct op as [bytes | ptr |]; cbn [stack_step fst].
  - unfold stack_alloc. destruct (_ >? _); cbn [fst snd].
    + destruct (NULL =? NULL); cbn; auto.
    + destruct (_ =? NULL); cbn; auto.
  - cbn. auto.
  - cbn. auto.
Qed.

Lemma stack_run_fields ops : forall st,
  memory (fst (stack_run st ops)) = memory (fst st) /\
  size (fst (stack_run st ops)) = size (fst st).
Proof.
  induction ops as [| op ops IH]; intros st; [now split |].
  cbn [stack_run fold_left]. change (fold_left stack_step ops ?s) with (stack_run s ops).
  destruct (IH (stack_step st op)) as [H1 H2].
  destruct (stack_step_fields st op) as [H3 H4]. split; congruence.
Qed.

(** X6. After [stack_reset], whatever calls came before, a request that
    fits the region is served from the start of the region, and a request
    larger than the region is refused. *)
Theorem stack_reset_alloc memory size ops bytes :
  0 < memory < 2 ^ 64 -> 0 <= bytes < 2 ^ 64 ->
  stack_alloc
    (stack_reset (fst (stack_run (stack_init memory size, []) ops))) bytes
  = if bytes >? size
    then (NULL,
          stack_reset (fst (stack_run (stack_init memory size, []) ops)))
    else (memory,
          {| StackAllocator.memory := memory; StackAllocator.size := size;
             top := bytes |}).
Proof.
  intros _ Hb.
  destruct (stack_run_fields ops (stack_init memory size, [])) as [Fm Fs].
  cbn [fst stack_init StackAllocator.memory StackAllocator.size] in Fm, Fs.
  unfold stack_alloc, stack_reset.
  cbn [StackAllocator.memory StackAllocator.size top].
  rewrite Fm, Fs, Z.add_0_l, Z.add_0_r, size_t_small by lia. reflexivity.
Qed.

Lemma stack_reset_alloc_witness :
  (0 < 4096 < 2 ^ 64 /\ 0 <= 50 < 2 ^ 64) /\
  fst (stack_alloc
         (stack_reset
            (fst (stack_run (stack_init 4096 100, [])
                    [OpAlloc 20; OpAlloc 30; OpFreeTo 5000])))
         50)
  = 4096.
Proof.
  split; [lia |]. rewrite stack_reset_alloc by lia. reflexivity.
Defined.

Lemma stack_run_allocs ns : forall sa live,
  0 < StackAllocator.memory sa -> 0 <= top sa ->
  Forall (fun n => 0 <= n) ns ->
  top sa + fold_right Z.add 0 ns <= StackAllocator.size sa ->
  StackAllocator.size sa < 2 ^ 64 ->
  top (fst (stack_run (sa, live) (map OpAlloc ns)))
  = top sa + fold_right Z.add 0 ns /\
  snd (stack_run (sa, live) (map OpAlloc ns))
  = rev (bump_handles (StackAllocator.memory sa + top sa) ns) ++ live.
Proof.
  induction ns as [| n ns IH]; intros sa live Hm Ht Hns Hsum Hsz.
  - cbn. split; [lia | reflexivity].
  - pose proof (Forall_inv Hns) as Hn. pose proof (Forall_inv_tail Hns) as Hns'.
    cbn beta in Hn. cbn [fold_right] in Hsum.
    assert (Hrest : 0 <= fold_right Z.add 0 ns).
    { clear -Hns'. induction ns as [| m ns IHn]; cbn; [lia |].
      pose proof (Forall_inv Hns'). pose proof (Forall_inv_tail Hns').
      cbn beta in *. specialize (IHn ltac:(assumption)). lia. }
    assert (Hstep : stack_step (sa, live) (OpAlloc n)
                    = ({| StackAllocator.memory := StackAllocator.memory sa;
                          StackAllocator.size := StackAllocator.size sa;
                          top := top sa + n |},
                       (StackAllocator.memory sa + top sa, n) :: live)).
    { cbn [stack_step]. rewrite stack_alloc_no_wrap by lia.
      destruct (Z.gtb_spec (top sa + n) (StackAllocator.size sa)) as [Hgt | _];
        [lia |].
      destruct (Z.eqb_spec (StackAllocator.memory sa + top sa) NULL) as [E | _];
        [unfold NULL in E; lia | reflexivity]. }
    cbn [map stack_run fold_left].
    change (fold_left stack_step ?l ?s) with (stack_run s l).
    rewrite Hstep.
    match goal with
    | |- context [stack_run (?sa1, ?live1) _] =>
        destruct (IH sa1 live1) as [IH1 IH2]
    end; cbn [StackAllocator.memory StackAllocator.size top];
      try assumption; try lia.
    cbn [StackAllocator.memory StackAllocator.size top] in IH1, IH2.
    split.
    + etransitivity; [exact IH1 |]. cbn [fold_right]. lia.
    + etransitivity; [exact IH2 |]. cbn [bump_handles rev].
      rewrite <- app_assoc. cbn [app].
      replace (StackAllocator.memory sa + (top sa + n))
        with (StackAllocator.memory sa + top sa + n) by lia.
      reflexivity.
Qed.

(** X8. Allocations are served back to back: requests of the sizes [ns]
    that fit the region together all succeed on a fresh allocator, the
    first at the start of the region and each next one where the one
    before ends, and [top] is then the sum of the sizes. *)
Theorem stack_allocs_back_to_back memory size ns :
  0 < memory -> memory + size < 2 ^ 64 ->
  Forall (fun n => 0 <= n) ns ->
  fold_right Z.add 0 ns <= size ->
  top (fst (stack_run (stack_init memory size, []) (map OpAlloc ns)))
  = fold_right Z.add 0 ns /\
  snd (stack_run (stack_init memory size, []) (map OpAlloc ns))
  = rev (bump_handles memory ns).
Proof.
  intros Hm Hs Hns Hsum.
  destruct (stack_run_allocs ns (stack_init memory size) [])
    as [H1 H2]; cbn [stack_init StackAllocator.memory StackAllocator.size top];
    try assumption; try lia.
  cbn [stack_init StackAllocator.memory StackAllocator.size top] in H1, H2.
  rewrite H1, H2, app_nil_r, Z.add_0_r. split; [lia | reflexivity].
Qed.

Lemma stack_allocs_back_to_back_witness :
  (0 < 4096 /\ 4096 + 100 < 2 ^ 64 /\ Forall (fun n => 0 <= n) [20; 30; 50] /\
   fold_right Z.add 0 [20; 30; 50] <= 100) /\
  snd (stack_run (stack_init 4096 100, []) (map OpAlloc [20; 30; 50]))
  = rev (bump_handles 4096 [20; 30; 50]).
Proof.
  assert (Hns : Forall (fun n => 0 <= n) [20; 30; 50])
    by (repeat constructor; lia).
  split; [split; [lia |]; split; [lia |]; split; [exact Hns | cbn; lia] |].
  exact (proj2 (stack_allocs_back_to_back 4096 100 [20; 30; 50]
                  ltac:(lia) ltac:(lia) Hns ltac:(cbn; lia))).
Defined.

(** X7. As long as every [stack_free_to] gets a live handle and no request
    can wrap, [top] stays within the capacity and every live handle lies
    inside the region given to [stack_init]. *)
Theorem stack_live_in_region memory size ops :
  0 < memory -> 0 <= size -> memory + size < 2 ^ 64 ->
  ops_ok (stack_init memory size, []) ops ->
  0 <= top (fst (stack_run (stack_init memory size, []) ops)) <= size /\
  Forall (fun h => memory <= fst h /\ 0 <= snd h /\
                   fst h + snd h <= memory + size)
    (snd (stack_run (stack_init memory size, []) ops)).
Proof.
  intros Hm Hs0 Hms Hok.
  assert (Hs : 0 <= size < 2 ^ 64) by lia.
  pose proof (stack_run_inv ops _ (stack_init_inv memory size Hm Hs) Hok) as Hinv.
  destruct (stack_run_fields ops (stack_init memory size, [])) as [Fm Fs].
  cbn [fst stack_init StackAllocator.memory StackAllocator.size] in Fm, Fs.
  destruct Hinv as [Ht _ _ Hl _]. rewrite Fm, Fs in *.
  split; [exact Ht |].
  eapply Forall_impl; [| exact Hl]. cbn beta. intros h Hh. lia.
Qed.

Lemma stack_live_in_region_witness :
  (0 < 4096 /\ 0 <= 100 /\ 4096 + 100 < 2 ^ 64 /\
   ops_ok (stack_init 4096 100, [])
     [OpAlloc 20; OpAlloc 30; OpFreeTo 4116; OpAlloc 80]) /\
  0 <= top (fst (stack_run (stack_init 4096 100, [])
                   [OpAlloc 20; OpAlloc 30; OpFreeTo 4116; OpAlloc 80])) <= 100.
Proof.
  assert (Hok : ops_ok (stack_init 4096 100, [])
                  [OpAlloc 20; OpAlloc 30; OpFreeTo 4116; OpAlloc 80]).
  { cbn. repeat split; try lia. exists 30. now left. }
  split; [split; [lia |]; split; [lia |]; split; [lia | exact Hok] |].
  exact (proj1 (stack_live_in_region 4096 100 _
                  ltac:(lia) ltac:(lia) ltac:(lia) Hok)).
Defined.

End StackAllocatorFacts.

(** ** memory_pool.h: the free list *)

Module MemoryPoolFacts.
Import Mem MemFacts MemoryPool.

Lemma length_mp_init_loop n : forall i memory block_size,
  length (mp_init_loop n i memory block_size) = n.
Proof. induction n as [| n IH]; intros; cbn [mp_init_loop length]; auto. Qed.

(** The number of link fields [mp_init] stores. *)
Lemma mp_init_links_length memory total_size block_size :
  Z.of_nat (length (mp_init_links memory total_size block_size))
  = size_t (total_size / block_size - 1) + 1.
Proof.
  unfold mp_init_links. rewrite length_app, length_mp_init_loop.
  cbn [length]. pose proof (size_t_range (total_size / block_size - 1)). lia.
Qed.

(** With at least one block, [mp_init] stores [num_blocks] link fields. *)
Lemma mp_init_links_blocks memory total_size block_size :
  1 <= total_size / block_size <= 2 ^ 64 ->
  Z.of_nat (length (mp_init_links memory total_size block_size))
  = total_size / block_size.
Proof.
  intros H. rewrite mp_init_links_length, size_t_small; lia.
Qed.

(** C9, at an input where the claim fails.  A region of 16 bytes with blocks
    of 32 bytes has [num_blocks = 0]; [num_blocks - 1] wraps to [SIZE_MAX]
    and [mp_init] stores [2^64] link fields, not [num_blocks] of them. *)
Theorem mp_init_links_underflow :
  16 / 32 = 0 /\
  Z.of_nat (length (mp_init_links 4096 16 32)) = 2 ^ 64.
Proof.
  split; [reflexivity |]. rewrite mp_init_links_length. reflexivity.
Qed.

Lemma load_ptr_store_ptr m off p :
  0 <= off -> off + 8 <= Z.of_nat (length m) -> 0 <= p < 2 ^ 64 ->
  load_ptr (store_ptr m off p) off = p.
Proof.
  intros Hoff Hlen Hp. unfold load_ptr, store_ptr.
  pose proof (length_le_split ptr_bytes p) as Hl.
  rewrite <- Hl at 2. rewrite load_bytes_store_bytes; rewrite ?Hl; cbn; try lia.
  rewrite le_combine_split. apply Z.mod_small. cbn. lia.
Qed.

(** C8. Reuse law: when [mp_alloc] succeeds and returns the block [b],
    [mp_free] of [b] followed by [mp_alloc] returns [b] again. *)
Theorem mp_reuse_law mp b mp1 :
  mp_alloc mp = (b, mp1) -> b <> NULL ->
  fst (mp_alloc (mp_free mp1 b)) = b.
Proof.
  intros _ Hb. unfold mp_alloc, mp_free. cbn [free_list].
  destruct (Z.eqb_spec b NULL) as [E | _]; [contradiction | reflexivity].
Qed.

Lemma mp_reuse_law_witness :
  (mp_alloc (mp_init 4096 (repeat Byte.x00 200) 200 32)
   = (4096, snd (mp_alloc (mp_init 4096 (repeat Byte.x00 200) 200 32))) /\
   4096 <> NULL) /\
  fst (mp_alloc
         (mp_free (snd (mp_alloc (mp_init 4096 (repeat Byte.x00 200) 200 32)))
            4096))
  = 4096.
Proof.
  assert (Ha : mp_alloc (mp_init 4096 (repeat Byte.x00 200) 200 32)
               = (4096, snd (mp_alloc (mp_init 4096 (repeat Byte.x00 200) 200 32))))
    by (vm_compute; reflexivity).
  assert (Hb : 4096 <> NULL) by discriminate.
  split; [split; assumption |].
  exact (mp_reuse_law _ _ _ Ha Hb).
Defined.

(** The free list is also back to what it was before [b] was freed, when
    the link field of [b] lies inside the region. *)
Lemma mp_free_alloc_free_list mp b :
  b <> NULL ->
  0 <= b - memory mp -> b - memory mp + 8 <= Z.of_nat (length (region mp)) ->
  0 <= free_list mp < 2 ^ 64 ->
  free_list (snd (mp_alloc (mp_free mp b))) = free_list mp.
Proof.
  intros Hb Hlo Hhi Hfl. unfold mp_alloc, mp_free. cbn [free_list memory region].
  destruct (Z.eqb_spec b NULL) as [E | _]; [contradiction |].
  cbn [snd free_list]. now apply load_ptr_store_ptr.
Qed.

(** *** The free chain [mp_init] builds *)

Lemma length_store_ptr m off p : length (store_ptr m off p) = length m.
Proof. unfold store_ptr. apply length_store_bytes. Qed.

Lemma load_ptr_store_ptr_other m off off' p :
  off' + 8 <= off \/ off + 8 <= off' ->
  load_ptr (store_ptr m off p) off' = load_ptr m off'.
Proof.
  intros H. unfold load_ptr, store_ptr. f_equal.
  apply load_bytes_ext. intros i Hi. apply load8_store_bytes_out.
  rewrite length_le_split. cbn in *. lia.
Qed.

Section InitChain.
Variables (memory total_size block_size : Z) (region : list byte).
Hypothesis Hmem : 0 < memory.
Hypothesis Hblock : 8 <= block_size.
Hypothesis Hblocks : 1 <= total_size / block_size.
Hypothesis Hregion : total_size <= Z.of_nat (length region).
Hypothesis Haddr : memory + total_size <= 2 ^ 64.

Lemma mp_blocks_fit :
  total_size / block_size * block_size <= total_size.
Proof.
  pose proof (Z.mul_div_le total_size block_size ltac:(lia)). lia.
Qed.

Lemma mp_block_offset i :
  0 <= i < total_size / block_size ->
  size_t (i * block_size) = i * block_size /\
  0 <= i * block_size /\ i * block_size + block_size <= total_size.
Proof.
  intros Hi. pose proof mp_blocks_fit.
  assert (0 <= i * block_size /\ i * block_size + block_size <= total_size)
    by nia.
  split; [apply size_t_small; lia | assumption].
Qed.

(** The link fields of the blocks from [i] on after the stores of the loop
    that starts at [i] and runs [k] times. *)
Lemma mp_init_loop_links k : forall i m j,
  0 <= i -> i + Z.of_nat k < total_size / block_size ->
  total_size <= Z.of_nat (length m) ->
  0 <= j < total_size / block_size ->
  load_ptr
    (fold_left (mp_store_link memory) (mp_init_loop k i memory block_size) m)
    (j * block_size)
  = if (i <=? j) && (j <? i + Z.of_nat k)
    then memory + (j + 1) * block_size
    else load_ptr m (j * block_size).
Proof.
  induction k as [| k IH]; intros i m j Hi Hk Hm Hj; cbn [mp_init_loop fold_left].
  - destruct (Z.leb_spec i j); destruct (Z.ltb_spec j (i + Z.of_nat 0));
      cbn [andb]; try reflexivity; lia.
  - unfold mp_store_link at 2, mp_link. cbn [fst snd].
    destruct (mp_block_offset i ltac:(lia)) as (Ei & Hi0 & Hi1).
    destruct (mp_block_offset (i + 1) ltac:(lia)) as (Ei1 & _ & Hi2).
    destruct (mp_block_offset j Hj) as (_ & Hj0 & Hj1).
    rewrite Ei, Ei1.
    replace (memory + i * block_size - memory) with (i * block_size) by lia.
    rewrite IH; rewrite ?length_store_ptr; try lia.
    destruct (Z.eq_dec j i) as [-> | Hne].
    + destruct (Z.leb_spec (i + 1) i); [lia |]. cbn [andb].
      destruct (Z.leb_spec i i); [| lia].
      destruct (Z.ltb_spec i (i + Z.of_nat (S k))); [| lia]. cbn [andb].
      apply load_ptr_store_ptr; lia.
    + rewrite load_ptr_store_ptr_other by nia.
      destruct (Z.leb_spec (i + 1) j); destruct (Z.leb_spec i j);
        destruct (Z.ltb_spec j (i + 1 + Z.of_nat k));
        destruct (Z.ltb_spec j (i + Z.of_nat (S k)));
        cbn [andb]; try reflexivity; lia.
Qed.

(** After [mp_init] the link field of every block but the last holds the
    address of the next block, and that of the last block holds [NULL]. *)
Lemma mp_init_chain j :
  0 <= j < total_size / block_size ->
  load_ptr (MemoryPool.region (mp_init memory region total_size block_size))
    (j * block_size)
  = if j =? total_size / block_size - 1 then NULL
    else memory + (j + 1) * block_size.
Proof.
  intros Hj. cbn [mp_init MemoryPool.region]. unfold mp_init_links.
  set (n := total_size / block_size) in *.
  pose proof mp_blocks_fit as Hfit. fold n in Hfit.
  assert (En : size_t (n - 1) = n - 1) by (apply size_t_small; nia).
  rewrite En, fold_left_app. cbn [fold_left].
  unfold mp_store_link at 1. cbn [fst snd].
  destruct (mp_block_offset (n - 1) ltac:(lia)) as (El & Hl0 & Hl1).
  destruct (mp_block_offset j Hj) as (_ & Hj0 & Hj1).
  rewrite El.
  replace (memory + (n - 1) * block_size - memory) with ((n - 1) * block_size)
    by lia.
  assert (Hlen : forall l m, length (fold_left (mp_store_link memory) l m)
                             = length m).
  { induction l as [| w l IHl]; intros m; cbn [fold_left]; [reflexivity |].
    rewrite IHl. apply length_store_ptr. }
  destruct (Z.eqb_spec j (n - 1)) as [-> | Hne].
  - apply load_ptr_store_ptr; rewrite ?Hlen; unfold NULL; lia.
  - rewrite load_ptr_store_ptr_other by nia.
    rewrite mp_init_loop_links by lia.
    destruct (Z.leb_spec 0 j); destruct (Z.ltb_spec j (0 + Z.of_nat (Z.to_nat (n - 1))));
      cbn [andb]; try reflexivity; lia.
Qed.

Lemma mp_alloc_n_chain k : forall mp i,
  MemoryPool.memory mp = memory ->
  MemoryPool.region mp
  = MemoryPool.region (mp_init memory region total_size block_size) ->
  0 <= i -> i + Z.of_nat k <= total_size / block_size ->
  free_list mp = (if i =? total_size / block_size then NULL
                  else memory + i * block_size) ->
  fst (mp_alloc_n mp k) = mp_blocks memory block_size i k /\
  free_list (snd (mp_alloc_n mp k))
  = (if i + Z.of_nat k =? total_size / block_size then NULL
     else memory + (i + Z.of_nat k) * block_size).
Proof.
  induction k as [| k IH]; intros mp i Hm Hr Hi Hk Hfl.
  - cbn [mp_alloc_n mp_blocks fst snd]. rewrite Z.add_0_r. auto.
  - destruct (Z.eqb_spec i (total_size / block_size)) as [E | _]; [lia |].
    destruct (mp_block_offset i ltac:(lia)) as (_ & Hi0 & Hi1).
    assert (Ha : exists mp1,
               mp_alloc mp = (memory + i * block_size, mp1) /\
               MemoryPool.memory mp1 = memory /\
               MemoryPool.region mp1 = MemoryPool.region mp /\
               free_list mp1
               = (if i + 1 =? total_size / block_size then NULL
                  else memory + (i + 1) * block_size)).
    { unfold mp_alloc. rewrite Hfl.
      destruct (Z.eqb_spec (memory + i * block_size) NULL) as [E | _];
        [unfold NULL in E; lia |].
      eexists. split; [reflexivity |]. cbn [MemoryPool.memory MemoryPool.region free_list].
      split; [exact Hm |]. split; [reflexivity |].
      rewrite Hm, Hr.
      replace (memory + i * block_size - memory) with (i * block_size) by lia.
      rewrite mp_init_chain by lia.
      destruct (Z.eqb_spec i (total_size / block_size - 1));
        destruct (Z.eqb_spec (i + 1) (total_size / block_size));
        try reflexivity; lia. }
    destruct Ha as (mp1 & Ha & Hm1 & Hr1 & Hfl1).
    cbn [mp_alloc_n mp_blocks]. rewrite Ha.
    destruct (IH mp1 (i + 1) Hm1 ltac:(congruence) ltac:(lia) ltac:(lia) Hfl1)
      as [IH1 IH2].
    destruct (mp_alloc_n mp1 k) as [blocks mp2]. cbn [fst snd] in *.
    rewrite IH1, IH2. split; [reflexivity |].
    replace (i + 1 + Z.of_nat k) with (i + Z.of_nat (S k)) by lia.
    reflexivity.
Qed.

(** X9. The pool hands out every block once, in address order, and is
    then exhausted: [num_blocks] calls of [mp_alloc] after [mp_init] return
    the blocks 0, 1, ..., and the next call returns [NULL]. *)
Theorem mp_init_alloc_all :
  fst (mp_alloc_n (mp_init memory region total_size block_size)
         (Z.to_nat (total_size / block_size)))
  = mp_blocks memory block_size 0 (Z.to_nat (total_size / block_size)) /\
  fst (mp_alloc
         (snd (mp_alloc_n (mp_init memory region total_size block_size)
                 (Z.to_nat (total_size / block_size)))))
  = NULL.
Proof.
  destruct (mp_alloc_n_chain (Z.to_nat (total_size / block_size))
              (mp_init memory region total_size block_size) 0)
    as [H1 H2]; try reflexivity; try lia.
  - cbn [mp_init free_list].
    destruct (Z.eqb_spec 0 (total_size / block_size)); [lia |]. lia.
  - split; [exact H1 |]. unfold mp_alloc. rewrite H2.
    replace (0 + Z.of_nat (Z.to_nat (total_size / block_size)))
      with (total_size / block_size) by lia.
    rewrite Z.eqb_refl. reflexivity.
Qed.

End InitChain.

(** *** Freeing blocks *)

Lemma store8_load8 m off : store8 m off (load8 m off) = m.
Proof.
  unfold store8, load8. destruct (in_range m off) eqn:E; [| reflexivity].
  apply in_range_true in E.
  rewrite <- (skipn_nth_cons Byte.x00) by lia.
  apply firstn_skipn.
Qed.

Lemma store_bytes_load_bytes n : forall m off,
  store_bytes m off (load_bytes m off n) = m.
Proof.
  induction n as [| n IH]; intros m off; cbn [load_bytes store_bytes];
    [reflexivity |].
  rewrite store8_load8. apply IH.
Qed.

Lemma store_ptr_load_ptr m off : store_ptr m off (load_ptr m off) = m.
Proof.
  unfold store_ptr, load_ptr.
  pose proof (split_le_combine (load_bytes m off ptr_bytes)) as H.
  rewrite length_load_bytes in H. rewrite H.
  apply store_bytes_load_bytes.
Qed.

(** X10. [mp_free] of the block a successful [mp_alloc] has just returned
    gives back the pool as it was, free list and bytes of the region (the
    head of the free list being a block of the region). *)
Theorem mp_alloc_free mp :
  free_list mp <> NULL ->
  0 <= free_list mp - memory mp ->
  free_list mp - memory mp + 8 <= Z.of_nat (length (region mp)) ->
  mp_free (snd (mp_alloc mp)) (fst (mp_alloc mp)) = mp.
Proof.
  intros Hfl _ _. unfold mp_alloc.
  destruct (Z.eqb_spec (free_list mp) NULL) as [E | _]; [contradiction |].
  cbn [fst snd]. unfold mp_free. cbn [memory region total_size block_size free_list].
  rewrite store_ptr_load_ptr. now destruct mp.
Qed.

Lemma mp_alloc_free_witness :
  (4160 <> NULL /\ 0 <= 4160 - 4096 /\
   4160 - 4096 + 8 <= Z.of_nat (length (repeat Byte.x07 200))) /\
  mp_free
    (snd (mp_alloc
            {| memory := 4096; region := repeat Byte.x07 200;
               total_size := 200; block_size := 32; free_list := 4160 |}))
    (fst (mp_alloc
            {| memory := 4096; region := repeat Byte.x07 200;
               total_size := 200; block_size := 32; free_list := 4160 |}))
  = {| memory := 4096; region := repeat Byte.x07 200;
       total_size := 200; block_size := 32; free_list := 4160 |}.
Proof.
  assert (Hlen : Z.of_nat (length (repeat Byte.x07 200)) = 200) by reflexivity.
  assert (H : 4160 <> NULL) by discriminate.
  split; [rewrite Hlen; split; [exact H | lia] |].
  apply (mp_alloc_free
           {| memory := 4096; region := repeat Byte.x07 200;
              total_size := 200; block_size := 32; free_list := 4160 |});
    cbn [memory region free_list]; rewrite ?Hlen; first [exact H | lia].
Defined.

(** X11. Blocks come back in the reverse order of their release: after
    [mp_free] of [b1] and then of [b2], two blocks of the region whose link
    fields do not overlap, [mp_alloc] returns [b2], then [b1], and the free
    list is then what it was before the two calls of [mp_free]. *)
Theorem mp_free_lifo mp b1 b2 :
  b1 <> NULL -> b2 <> NULL ->
  0 <= b1 < 2 ^ 64 -> 0 <= free_list mp < 2 ^ 64 ->
  0 <= b1 - memory mp -> b1 - memory mp + 8 <= Z.of_nat (length (region mp)) ->
  0 <= b2 - memory mp -> b2 - memory mp + 8 <= Z.of_nat (length (region mp)) ->
  b1 + 8 <= b2 \/ b2 + 8 <= b1 ->
  fst (mp_alloc_n (mp_free (mp_free mp b1) b2) 2) = [b2; b1] /\
  free_list (snd (mp_alloc_n (mp_free (mp_free mp b1) b2) 2)) = free_list mp.
Proof.
  intros Hn1 Hn2 Hb1 Hfl H1lo H1hi H2lo H2hi Hapart.
  cbn [mp_alloc_n]. unfold mp_alloc, mp_free.
  cbn [memory region total_size block_size free_list fst snd].
  destruct (Z.eqb_spec b2 NULL) as [E | _]; [contradiction |].
  cbn [memory region total_size block_size free_list fst snd].
  rewrite load_ptr_store_ptr by (rewrite ?length_store_ptr; lia).
  destruct (Z.eqb_spec b1 NULL) as [E | _]; [contradiction |].
  cbn [memory region total_size block_size free_list fst snd].
  split; [reflexivity |].
  rewrite load_ptr_store_ptr_other by lia.
  apply load_ptr_store_ptr; lia.
Qed.

Lemma mp_free_lifo_witness :
  (4096 <> NULL /\ 4160 <> NULL /\ 0 <= 4096 < 2 ^ 64 /\
   0 <= 4192 < 2 ^ 64 /\
   0 <= 4096 - 4096 /\
   4096 - 4096 + 8 <= Z.of_nat (length (repeat Byte.x00 200)) /\
   0 <= 4160 - 4096 /\
   4160 - 4096 + 8 <= Z.of_nat (length (repeat Byte.x00 200)) /\
   (4096 + 8 <= 4160 \/ 4160 + 8 <= 4096)) /\
  fst (mp_alloc_n
         (mp_free
            (mp_free
               {| memory := 4096; region := repeat Byte.x00 200;
                  total_size := 200; block_size := 32; free_list := 4192 |}
               4096) 4160) 2)
  = [4160; 4096].
Proof.
  assert (Hlen : Z.of_nat (length (repeat Byte.x00 200)) = 200) by reflexivity.
  assert (H1 : 4096 <> NULL) by discriminate.
  assert (H2 : 4160 <> NULL) by discriminate.
  split.
  - rewrite Hlen. split; [exact H1 |]. split; [exact H2 |]. lia.
  - apply (mp_free_lifo
             {| memory := 4096; region := repeat Byte.x00 200;
                total_size := 200; block_size := 32; free_list := 4192 |}
             4096 4160 H1 H2);
      cbn [memory region free_list]; rewrite ?Hlen; lia.
Defined.

(** X12. A block freed twice is linked to itself: after two calls of
    [mp_free] with the same block, every [mp_alloc] returns that block and
    leaves the pool as it is, so the block is handed out again and again. *)
Theorem mp_double_free mp b :
  b <> NULL -> 0 <= b < 2 ^ 64 ->
  0 <= b - memory mp -> b - memory mp + 8 <= Z.of_nat (length (region mp)) ->
  mp_alloc (mp_free (mp_free mp b) b) = (b, mp_free (mp_free mp b) b).
Proof.
  intros Hn Hb Hlo Hhi. unfold mp_alloc, mp_free.
  cbn [memory region total_size block_size free_list].
  destruct (Z.eqb_spec b NULL) as [E | _]; [contradiction |].
  rewrite load_ptr_store_ptr by (rewrite ?length_store_ptr; lia).
  reflexivity.
Qed.

Lemma mp_double_free_witness :
  (4096 <> NULL /\ 0 <= 4096 < 2 ^ 64 /\
   0 <= 4096 - 4096 /\
   4096 - 4096 + 8 <= Z.of_nat (length (repeat Byte.x00 200))) /\
  fst (mp_alloc
         (mp_free
            (mp_free
               {| memory := 4096; region := repeat Byte.x00 200;
                  total_size := 200; block_size := 32; free_list := NULL |}
               4096) 4096))
  = 4096.
Proof.
  assert (Hlen : Z.of_nat (length (repeat Byte.x00 200)) = 200) by reflexivity.
  split; [rewrite Hlen; split; [discriminate | lia] |].
  rewrite mp_double_free; cbn [memory region]; rewrite ?Hlen;
    first [reflexivity | discriminate | lia].
Defined.

(** *** The blocks of a fresh pool *)

Lemma In_mp_blocks memory block_size k : forall i b,
  In b (mp_blocks memory block_size i k) ->
  exists j, i <= j < i + Z.of_nat k /\ b = memory + j * block_size.
Proof.
  induction k as [| k IH]; intros i b Hin; cbn [mp_blocks] in Hin; [easy |].
  destruct Hin as [<- | Hin].
  - exists i. split; [lia | reflexivity].
  - destruct (IH _ _ Hin) as (j & Hj & ->). exists j. split; [lia | reflexivity].
Qed.

Lemma mp_blocks_apart memory block_size k : forall i,
  0 <= block_size ->
  ForallOrdPairs (fun b1 b2 => b1 + block_size <= b2)
    (mp_blocks memory block_size i k).
Proof.
  induction k as [| k IH]; intros i Hbs; cbn [mp_blocks]; constructor.
  - apply Forall_forall. intros b Hin.
    destruct (In_mp_blocks _ _ _ _ _ Hin) as (j & Hj & ->). nia.
  - now apply IH.
Qed.

(** X13. The blocks a fresh pool hands out, [num_blocks] of them, lie
    inside the region and are [block_size] bytes apart, so that no two of
    them overlap. *)
Theorem mp_blocks_disjoint memory total_size block_size region :
  0 < memory -> 8 <= block_size -> 1 <= total_size / block_size ->
  total_size <= Z.of_nat (length region) -> memory + total_size <= 2 ^ 64 ->
  Forall (fun b => memory <= b /\ b + block_size <= memory + total_size)
    (fst (mp_alloc_n (mp_init memory region total_size block_size)
            (Z.to_nat (total_size / block_size)))) /\
  ForallOrdPairs (fun b1 b2 => b1 + block_size <= b2)
    (fst (mp_alloc_n (mp_init memory region total_size block_size)
            (Z.to_nat (total_size / block_size)))).
Proof.
  intros Hmem Hblock Hblocks Hregion Haddr.
  destruct (mp_alloc_n_chain memory total_size block_size region
              Hmem Hblock Hblocks Hregion Haddr
              (Z.to_nat (total_size / block_size))
              (mp_init memory region total_size block_size) 0)
    as [H1 _]; try reflexivity; try lia.
  { cbn [mp_init free_list].
    destruct (Z.eqb_spec 0 (total_size / block_size)); lia. }
  rewrite H1. split; [| apply mp_blocks_apart; lia].
  apply Forall_forall. intros b Hin.
  destruct (In_mp_blocks _ _ _ _ _ Hin) as (j & Hj & ->).
  destruct (mp_block_offset memory total_size block_size region
              Hmem Hblock Haddr j ltac:(lia)) as (_ & Hj0 & Hj1).
  lia.
Qed.

Lemma mp_pool_200_32 :
  0 < 4096 /\ 8 <= 32 /\ 1 <= 200 / 32 /\
  200 <= Z.of_nat (length (repeat Byte.x00 200)) /\ 4096 + 200 <= 2 ^ 64.
Proof.
  assert (Hlen : Z.of_nat (length (repeat Byte.x00 200)) = 200) by reflexivity.
  assert (Hdiv : 200 / 32 = 6) by reflexivity.
  rewrite Hlen, Hdiv. lia.
Qed.

Lemma mp_blocks_disjoint_witness :
  (0 < 4096 /\ 8 <= 32 /\ 1 <= 200 / 32 /\
   200 <= Z.of_nat (length (repeat Byte.x00 200)) /\ 4096 + 200 <= 2 ^ 64) /\
  ForallOrdPairs (fun b1 b2 => b1 + 32 <= b2)
    (fst (mp_alloc_n (mp_init 4096 (repeat Byte.x00 200) 200 32)
            (Z.to_nat (200 / 32)))).
Proof.
  split; [exact mp_pool_200_32 |].
  destruct mp_pool_200_32 as (H1 & H2 & H3 & H4 & H5).
  exact (proj2 (mp_blocks_disjoint 4096 200 32 (repeat Byte.x00 200)
                  H1 H2 H3 H4 H5)).
Defined.

Lemma mp_init_alloc_all_witness :
  (0 < 4096 /\ 8 <= 32 /\ 1 <= 200 / 32 /\
   200 <= Z.of_nat (length (repeat Byte.x00 200)) /\ 4096 + 200 <= 2 ^ 64) /\
  fst (mp_alloc
         (snd (mp_alloc_n (mp_init 4096 (repeat Byte.x00 200) 200 32)
                 (Z.to_nat (200 / 32)))))
  = NULL.
Proof.
  split; [exact mp_pool_200_32 |].
  destruct mp_pool_200_32 as (H1 & H2 & H3 & H4 & H5).
  exact (proj2 (mp_init_alloc_all 4096 200 32 (repeat Byte.x00 200)
                  H1 H2 H3 H4 H5)).
Defined.

End MemoryPoolFacts.

(** ** fixed_hash_table.h: probing, storing and looking up *)

Module FixedHashTableFacts.
Import Examples Mem MemFacts FixedHashTable.

(** *** Strings *)

Lemma byte_unsigned_0 c : byte.unsigned c = 0 -> c = Byte.x00.
Proof. intros H. apply byte.unsigned_inj. rewrite H. reflexivity. Qed.

(** On C strings, [strcmp] returns 0 exactly for equal strings. *)
Lemma strcmp_0 s1 : forall s2,
  is_cstring s1 -> is_cstring s2 -> (strcmp s1 s2 = 0 <-> s1 = s2).
Proof.
  induction s1 as [| c1 s1 IH]; intros [| c2 s2] H1 H2; cbn [strcmp].
  - tauto.
  - pose proof (Forall_inv H2) as Hc. cbn beta in Hc. split; [| discriminate].
    intros E. exfalso. apply Hc, byte_unsigned_0. lia.
  - pose proof (Forall_inv H1) as Hc. cbn beta in Hc. split; [| discriminate].
    intros E. exfalso. now apply Hc, byte_unsigned_0.
  - pose proof (Forall_inv_tail H1) as H1'. pose proof (Forall_inv_tail H2) as H2'.
    destruct (byte_eqb_spec c1 c2) as [-> | Hne].
    + rewrite IH by assumption. split; [now intros -> | now intros [= ->]].
    + split; [| intros [= ? ?]; contradiction].
      intros E. exfalso. apply Hne. apply byte.unsigned_inj. lia.
Qed.

Lemma strcmp_eqb s1 s2 :
  is_cstring s1 -> is_cstring s2 ->
  (strcmp s1 s2 =? 0) = true <-> s1 = s2.
Proof. intros H1 H2. rewrite Z.eqb_eq. now apply strcmp_0. Qed.

Lemma length_strncpy src n : 0 <= n -> Z.of_nat (length (strncpy src n)) = n.
Proof.
  intros Hn. unfold strncpy. rewrite length_app, repeat_length.
  pose proof (firstn_le_length (Z.to_nat n) src). lia.
Qed.

Lemma is_cstring_firstn n : forall s, is_cstring s -> is_cstring (firstn n s).
Proof.
  unfold is_cstring.
  induction n as [| n IH]; intros [| c s] H; cbn [firstn]; try constructor.
  - exact (Forall_inv H).
  - apply IH. exact (Forall_inv_tail H).
Qed.

Lemma nth_strncpy src n i :
  nth i (strncpy src n) Byte.x00 = nth i (firstn (Z.to_nat n) src) Byte.x00.
Proof.
  unfold strncpy.
  destruct (Nat.lt_ge_cases i (length (firstn (Z.to_nat n) src))) as [Hlt | Hge].
  - now apply app_nth1.
  - rewrite app_nth2 by lia. rewrite nth_repeat.
    symmetry. now apply nth_overflow.
Qed.

(** *** The probing loops stop at the first hit *)

Lemma find_from_Some P n : forall i j,
  find_from P n i = Some j ->
  i <= j < i + Z.of_nat n /\ P j = true /\
  forall j', i <= j' < j -> P j' = false.
Proof.
  induction n as [| n IH]; intros i j H; cbn [find_from] in H; [discriminate |].
  destruct (P i) eqn:E.
  - injection H as <-. split; [lia |]. split; [exact E | intros; lia].
  - apply IH in H. destruct H as (Hr & Hj & Hbefore).
    split; [lia |]. split; [exact Hj |].
    intros j' Hj'. destruct (Z.eq_dec j' i) as [-> | Hne]; [exact E |].
    apply Hbefore. lia.
Qed.

Lemma find_from_None P n : forall i,
  find_from P n i = None -> forall j, i <= j < i + Z.of_nat n -> P j = false.
Proof.
  induction n as [| n IH]; intros i H j Hj; [lia |]. cbn [find_from] in H.
  destruct (P i) eqn:E; [discriminate |].
  destruct (Z.eq_dec j i) as [-> | Hne]; [exact E |].
  apply (IH (i + 1)); [exact H | lia].
Qed.

Lemma find_from_first P n : forall i j,
  i <= j < i + Z.of_nat n -> P j = true ->
  (forall j', i <= j' < j -> P j' = false) ->
  find_from P n i = Some j.
Proof.
  induction n as [| n IH]; intros i j Hr Hj Hbefore; [lia |]. cbn [find_from].
  destruct (Z.eq_dec j i) as [-> | Hne]; [now rewrite Hj |].
  rewrite Hbefore by lia. apply IH; [lia | exact Hj |].
  intros j' Hj'. apply Hbefore. lia.
Qed.

Lemma find_from_exists P n : forall i j,
  i <= j < i + Z.of_nat n -> P j = true -> exists j0, find_from P n i = Some j0.
Proof.
  induction n as [| n IH]; intros i j Hr Hj; [lia |]. cbn [find_from].
  destruct (P i) eqn:E; [eauto |].
  apply (IH (i + 1) j); [| exact Hj].
  destruct (Z.eq_dec j i) as [-> | Hne]; [congruence | lia].
Qed.

Lemma ht_put_loop_find n : forall i ht key value index,
  ht_put_loop n i ht key value index
  = match find_from (fun j => put_hit ht key (probe ht index j)) n i with
    | Some j => (true, ht_store ht (bucket_of ht (probe ht index j)) key value)
    | None => (false, ht)
    end.
Proof.
  induction n as [| n IH]; intros; cbn [ht_put_loop find_from]; [reflexivity |].
  fold (probe ht index i).
  change (Byte.eqb _ Byte.x00 || (strcmp _ key =? 0))
    with (put_hit ht key (probe ht index i)).
  destruct (put_hit ht key (probe ht index i)); [reflexivity | apply IH].
Qed.

Lemma ht_get_loop_find n : forall i ht key index,
  ht_get_loop n i ht key index
  = match find_from (fun j => put_hit ht key (probe ht index j)) n i with
    | Some j => if occupied ht (probe ht index j)
                then Some (bucket_value ht (probe ht index j)) else None
    | None => None
    end.
Proof.
  induction n as [| n IH]; intros; cbn [ht_get_loop find_from]; [reflexivity |].
  fold (probe ht index i). rewrite IH.
  replace (put_hit ht key (probe ht index i))
    with (Byte.eqb
            (load8 (memory ht)
               (occupied_flag_of ht (bucket_of ht (probe ht index i))))
            Byte.x00
          || (strcmp (cstring_at (memory ht) (bucket_of ht (probe ht index i)))
                key =? 0)) by reflexivity.
  unfold occupied, bucket_flag.
  destruct (Byte.eqb
              (load8 (memory ht)
                 (occupied_flag_of ht (bucket_of ht (probe ht index i))))
              Byte.x00) eqn:Ef; cbn [orb]; rewrite ?Ef; cbn [negb];
    [reflexivity |].
  destruct (strcmp (cstring_at (memory ht) (bucket_of ht (probe ht index i)))
              key =? 0); rewrite ?Ef; reflexivity.
Qed.

Lemma ht_remove_loop_find n : forall i ht key index,
  ht_remove_loop n i ht key index
  = match find_from (fun j => put_hit ht key (probe ht index j)) n i with
    | Some j =>
        if occupied ht (probe ht index j)
        then (true,
              set_memory ht
                (store8 (memory ht)
                   (occupied_flag_of ht (bucket_of ht (probe ht index j)))
                   Byte.x00))
        else (false, ht)
    | None => (false, ht)
    end.
Proof.
  induction n as [| n IH]; intros; cbn [ht_remove_loop find_from]; [reflexivity |].
  fold (probe ht index i). rewrite IH.
  replace (put_hit ht key (probe ht index i))
    with (Byte.eqb
            (load8 (memory ht)
               (occupied_flag_of ht (bucket_of ht (probe ht index i))))
            Byte.x00
          || (strcmp (cstring_at (memory ht) (bucket_of ht (probe ht index i)))
                key =? 0)) by reflexivity.
  unfold occupied, bucket_flag.
  destruct (Byte.eqb
              (load8 (memory ht)
                 (occupied_flag_of ht (bucket_of ht (probe ht index i))))
              Byte.x00) eqn:Ef; cbn [orb]; rewrite ?Ef; cbn [negb];
    [reflexivity |].
  destruct (strcmp (cstring_at (memory ht) (bucket_of ht (probe ht index i)))
              key =? 0); rewrite ?Ef; reflexivity.
Qed.

(** *** Buckets do not overlap *)

Lemma bucket_bounds ht c :
  ht_wf ht -> 0 <= c < table_size ht ->
  0 <= c * bucket_size ht /\
  c * bucket_size ht + bucket_size ht <= Z.of_nat (length (memory ht)).
Proof.
  intros [Hn Hk Hv Hb Hr Ha Ht] Hc.
  assert (0 < bucket_size ht) by lia. split; nia.
Qed.

Lemma bucket_apart ht c c' :
  ht_wf ht -> c <> c' ->
  c * bucket_size ht + bucket_size ht <= c' * bucket_size ht \/
  c' * bucket_size ht + bucket_size ht <= c * bucket_size ht.
Proof.
  intros [Hn Hk Hv Hb Hr Ha Ht] Hne.
  assert (0 < bucket_size ht) by lia.
  destruct (Z_lt_dec c c'); [left | right]; nia.
Qed.

Lemma bucket_of_eq ht c :
  ht_wf ht -> 0 <= c < table_size ht -> bucket_of ht c = c * bucket_size ht.
Proof.
  intros Hwf Hc. pose proof (bucket_bounds ht c Hwf Hc).
  destruct Hwf as [Hn Hk Hv Hb Hr Ha Ht].
  unfold bucket_of. apply size_t_small. lia.
Qed.

Lemma probe_eq ht index i :
  ht_wf ht -> 0 <= index < table_size ht -> 0 <= i < table_size ht ->
  probe ht index i
  = if index + i <? table_size ht then index + i
    else index + i - table_size ht.
Proof.
  intros [Hn Hk Hv Hb Hr Ha Ht] Hidx Hi. unfold probe.
  assert (2 * table_size ht <= table_size ht * bucket_size ht) by nia.
  rewrite size_t_small by lia. apply mod_wrap_once; lia.
Qed.

Lemma probe_range ht index i :
  ht_wf ht -> 0 <= index < table_size ht -> 0 <= i < table_size ht ->
  0 <= probe ht index i < table_size ht.
Proof.
  intros Hwf Hidx Hi. rewrite probe_eq by assumption.
  destruct (index + i <? table_size ht) eqn:E;
    [apply Z.ltb_lt in E | apply Z.ltb_ge in E]; lia.
Qed.

Lemma probe_inj ht index i j :
  ht_wf ht -> 0 <= index < table_size ht ->
  0 <= i < table_size ht -> 0 <= j < table_size ht ->
  probe ht index i = probe ht index j -> i = j.
Proof.
  intros Hwf Hidx Hi Hj. rewrite !probe_eq by assumption.
  destruct (Z.ltb_spec (index + i) (table_size ht));
    destruct (Z.ltb_spec (index + j) (table_size ht)); lia.
Qed.

Lemma probe_surj ht index c :
  ht_wf ht -> 0 <= index < table_size ht -> 0 <= c < table_size ht ->
  exists i, 0 <= i < table_size ht /\ probe ht index i = c.
Proof.
  intros Hwf Hidx Hc.
  destruct (Z_le_dec index c).
  - exists (c - index). split; [lia |]. rewrite probe_eq by (assumption || lia).
    destruct (Z.ltb_spec (index + (c - index)) (table_size ht)); lia.
  - exists (c - index + table_size ht). split; [lia |].
    rewrite probe_eq by (assumption || lia).
    destruct (Z.ltb_spec (index + (c - index + table_size ht)) (table_size ht)); lia.
Qed.

Lemma hash_index_range ht key :
  ht_wf ht -> 0 <= hash_function key mod table_size ht < table_size ht.
Proof. intros Hwf. apply Z.mod_pos_bound. apply (wf_table _ Hwf). Qed.

(** *** What [ht_store] writes *)

Lemma ht_store_load8 ht c key value off :
  ht_wf ht -> 0 <= c < table_size ht ->
  Z.of_nat (length value) = value_size ht ->
  load8 (memory (ht_store ht (c * bucket_size ht) key value)) off
  = if off =? c * bucket_size ht + max_key_length ht + value_size ht
    then Byte.x01
    else if (c * bucket_size ht + max_key_length ht <=? off)
            && (off <? c * bucket_size ht + max_key_length ht + value_size ht)
    then nth (Z.to_nat (off - (c * bucket_size ht + max_key_length ht)))
           value Byte.x00
    else if off =? c * bucket_size ht + max_key_length ht - 1 then Byte.x00
    else if (c * bucket_size ht <=? off)
            && (off <? c * bucket_size ht + max_key_length ht - 1)
    then nth (Z.to_nat (off - c * bucket_size ht))
           (firstn (Z.to_nat (max_key_length ht - 1)) key) Byte.x00
    else load8 (memory ht) off.
Proof.
  intros Hwf Hc Hv. pose proof (bucket_bounds ht c Hwf Hc) as [Hb0 Hb1].
  destruct Hwf as [Hn Hk Hvs Hb Hr Ha Ht].
  unfold ht_store, set_memory, occupied_flag_of, value_location_of.
  cbn [memory]. rewrite size_t_small by lia.
  set (b := c * bucket_size ht) in *.
  pose proof (length_strncpy key (max_key_length ht - 1) ltac:(lia)) as Hl1.
  assert (Hfv : firstn (Z.to_nat (value_size ht)) value = value)
    by (apply firstn_all2; lia).
  rewrite Hfv.
  rewrite load8_store8.
  assert (Hin : forall m o, length m = length (memory ht) ->
            0 <= o < Z.of_nat (length (memory ht)) -> in_range m o = true).
  { intros m o Hm Ho. apply in_range_true. lia. }
  rewrite Hin;
    [| now rewrite length_store_bytes, length_store8, length_store_bytes | lia].
  rewrite andb_true_r.
  destruct (Z.eqb_spec off (b + max_key_length ht + value_size ht)) as [E1 | N1];
    [reflexivity |].
  rewrite load8_store_bytes;
    [| lia | rewrite length_store8, length_store_bytes; lia].
  rewrite Hv.
  destruct ((b + max_key_length ht <=? off)
            && (off <? b + max_key_length ht + value_size ht)) eqn:E2;
    [reflexivity |].
  rewrite load8_store8.
  rewrite Hin; [| now rewrite length_store_bytes | lia].
  rewrite andb_true_r.
  replace (b + (max_key_length ht - 1)) with (b + max_key_length ht - 1) by lia.
  destruct (Z.eqb_spec off (b + max_key_length ht - 1)) as [E3 | N3];
    [reflexivity |].
  rewrite load8_store_bytes by lia. rewrite Hl1.
  replace (b + (max_key_length ht - 1)) with (b + max_key_length ht - 1) by lia.
  destruct ((b <=? off) && (off <? b + max_key_length ht - 1)); [| reflexivity].
  apply nth_strncpy.
Qed.

Lemma ht_store_fields ht b key value :
  table_size (ht_store ht b key value) = table_size ht /\
  max_key_length (ht_store ht b key value) = max_key_length ht /\
  value_size (ht_store ht b key value) = value_size ht /\
  bucket_size (ht_store ht b key value) = bucket_size ht /\
  length (memory (ht_store ht b key value)) = length (memory ht).
Proof.
  unfold ht_store, set_memory. cbn. repeat split.
  now rewrite length_store8, length_store_bytes, length_store8, length_store_bytes.
Qed.

Ltac bool_cases :=
  repeat match goal with
    | |- context [?a =? ?b] => destruct (Z.eqb_spec a b)
    | |- context [?a <=? ?b] => destruct (Z.leb_spec a b)
    | |- context [?a <? ?b] => destruct (Z.ltb_spec a b)
    end; cbn [andb orb negb]; try lia.

(** Outside the bucket, memory is as before. *)
Lemma ht_store_frame ht c key value off :
  ht_wf ht -> 0 <= c < table_size ht ->
  Z.of_nat (length value) = value_size ht ->
  off < c * bucket_size ht \/ c * bucket_size ht + bucket_size ht <= off ->
  load8 (memory (ht_store ht (c * bucket_size ht) key value)) off
  = load8 (memory ht) off.
Proof.
  intros Hwf Hc Hv Hoff. rewrite ht_store_load8 by assumption.
  destruct Hwf as [Hn Hk Hvs Hb Hr Ha Ht]. bool_cases; reflexivity.
Qed.

Lemma ht_store_wf ht c key value :
  ht_wf ht -> 0 <= c < table_size ht ->
  Z.of_nat (length value) = value_size ht ->
  ht_wf (ht_store ht (c * bucket_size ht) key value).
Proof.
  intros Hwf Hc Hv.
  destruct (ht_store_fields ht (c * bucket_size ht) key value)
    as (F1 & F2 & F3 & F4 & F5).
  pose proof Hwf as [Hn Hk Hvs Hb Hr Ha Ht].
  constructor; rewrite ?F1, ?F2, ?F3, ?F4, ?F5; try assumption.
  intros c' Hc'. rewrite ht_store_load8 by assumption.
  destruct (Z.eq_dec c' c) as [-> | Hne].
  - bool_cases; reflexivity.
  - pose proof (bucket_apart ht c c' Hwf ltac:(congruence)) as Hap.
    bool_cases; auto.
Qed.

Lemma ht_store_flag ht c key value c' :
  ht_wf ht -> 0 <= c < table_size ht -> 0 <= c' < table_size ht ->
  Z.of_nat (length value) = value_size ht ->
  bucket_flag (ht_store ht (c * bucket_size ht) key value) c'
  = if c' =? c then Byte.x01 else bucket_flag ht c'.
Proof.
  intros Hwf Hc Hc' Hv.
  pose proof (ht_store_wf ht c key value Hwf Hc Hv) as Hwf'.
  destruct (ht_store_fields ht (c * bucket_size ht) key value)
    as (F1 & F2 & F3 & F4 & F5).
  unfold bucket_flag, occupied_flag_of.
  rewrite !bucket_of_eq by (rewrite ?F1; assumption).
  rewrite F2, F3, F4. rewrite ht_store_load8 by assumption.
  pose proof Hwf as [Hn Hk Hvs Hb Hr Ha Ht].
  destruct (Z.eqb_spec c' c) as [-> | Hne].
  - bool_cases; reflexivity.
  - pose proof (bucket_apart ht c c' Hwf ltac:(congruence)) as Hap.
    bool_cases; reflexivity.
Qed.

Lemma ht_store_value ht c key value c' :
  ht_wf ht -> 0 <= c < table_size ht -> 0 <= c' < table_size ht ->
  Z.of_nat (length value) = value_size ht ->
  bucket_value (ht_store ht (c * bucket_size ht) key value) c'
  = if c' =? c then value else bucket_value ht c'.
Proof.
  intros Hwf Hc Hc' Hv.
  pose proof (ht_store_wf ht c key value Hwf Hc Hv) as Hwf'.
  destruct (ht_store_fields ht (c * bucket_size ht) key value)
    as (F1 & F2 & F3 & F4 & F5).
  unfold bucket_value, value_location_of.
  rewrite !bucket_of_eq by (rewrite ?F1; assumption).
  rewrite F2, F3, F4.
  pose proof Hwf as [Hn Hk Hvs Hb Hr Ha Ht].
  destruct (Z.eqb_spec c' c) as [-> | Hne].
  - apply load_bytes_nth; [lia |]. intros i Hi.
    rewrite ht_store_load8 by assumption. bool_cases; reflexivity.
  - pose proof (bucket_apart ht c c' Hwf ltac:(congruence)) as Hap.
    apply load_bytes_ext. intros i Hi. apply ht_store_frame; try assumption.
    lia.
Qed.

Lemma bucket_key_ext ht ht' c :
  ht_wf ht -> 0 <= c < table_size ht ->
  bucket_size ht' = bucket_size ht ->
  (forall off, c * bucket_size ht <= off < c * bucket_size ht + max_key_length ht ->
     load8 (memory ht) off = load8 (memory ht') off) ->
  bucket_key ht c = bucket_key ht' c.
Proof.
  intros Hwf Hc Hbs Hagree.
  pose proof (bucket_bounds ht c Hwf Hc) as [Hb0 Hb1].
  pose proof Hwf as [Hn Hk Hvs Hb Hr Ha Ht].
  unfold bucket_key.
  assert (E : bucket_of ht' c = bucket_of ht c)
    by (unfold bucket_of; now rewrite Hbs).
  rewrite E, bucket_of_eq by assumption.
  apply (cstring_at_ext (Z.to_nat (max_key_length ht))); [lia | |].
  - intros i Hi. apply Hagree. lia.
  - exists (c * bucket_size ht + max_key_length ht - 1). split; [lia |].
    now apply Ht.
Qed.

Lemma ht_store_key ht c key value c' :
  ht_wf ht -> 0 <= c < table_size ht -> 0 <= c' < table_size ht ->
  Z.of_nat (length value) = value_size ht -> is_cstring key ->
  bucket_key (ht_store ht (c * bucket_size ht) key value) c'
  = if c' =? c then firstn (Z.to_nat (max_key_length ht - 1)) key
    else bucket_key ht c'.
Proof.
  intros Hwf Hc Hc' Hv Hkey.
  pose proof (ht_store_wf ht c key value Hwf Hc Hv) as Hwf'.
  destruct (ht_store_fields ht (c * bucket_size ht) key value)
    as (F1 & F2 & F3 & F4 & F5).
  pose proof Hwf as [Hn Hk Hvs Hb Hr Ha Ht].
  destruct (Z.eqb_spec c' c) as [-> | Hne].
  - pose proof (bucket_bounds ht c Hwf Hc) as [Hb0 Hb1].
    unfold bucket_key. rewrite bucket_of_eq by (rewrite ?F1; assumption).
    rewrite F4.
    pose proof (firstn_le_length (Z.to_nat (max_key_length ht - 1)) key) as Hle.
    apply cstring_at_chars; [lia | now apply is_cstring_firstn | |].
    + intros i Hi. rewrite ht_store_load8 by assumption.
      bool_cases. f_equal. lia.
    + rewrite ht_store_load8 by assumption. bool_cases; try reflexivity.
      apply nth_overflow. lia.
  - pose proof (bucket_apart ht c c' Hwf ltac:(congruence)) as Hap.
    symmetry. apply bucket_key_ext; try assumption.
    intros off Hoff. symmetry. apply ht_store_frame; try assumption. lia.
Qed.

Lemma occupied_store ht c key value c' :
  ht_wf ht -> 0 <= c < table_size ht -> 0 <= c' < table_size ht ->
  Z.of_nat (length value) = value_size ht ->
  occupied (ht_store ht (c * bucket_size ht) key value) c'
  = if c' =? c then true else occupied ht c'.
Proof.
  intros Hwf Hc Hc' Hv. unfold occupied. rewrite ht_store_flag by assumption.
  destruct (c' =? c); reflexivity.
Qed.

Lemma put_hit_store ht c key value k2 c' :
  ht_wf ht -> 0 <= c < table_size ht -> 0 <= c' < table_size ht ->
  Z.of_nat (length value) = value_size ht -> is_cstring key ->
  put_hit (ht_store ht (c * bucket_size ht) key value) k2 c'
  = if c' =? c
    then strcmp (firstn (Z.to_nat (max_key_length ht - 1)) key) k2 =? 0
    else put_hit ht k2 c'.
Proof.
  intros Hwf Hc Hc' Hv Hkey. unfold put_hit.
  rewrite ht_store_flag, ht_store_key by assumption.
  destruct (c' =? c); reflexivity.
Qed.

Lemma put_hit_false ht key c :
  is_cstring key ->
  put_hit ht key c = false <-> occupied ht c = true /\ bucket_key ht c <> key.
Proof.
  intros Hkey. unfold put_hit, occupied.
  rewrite orb_false_iff, negb_true_iff.
  pose proof (strcmp_eqb (bucket_key ht c) key
                (cstring_at_is_cstring _ _) Hkey) as Hs.
  destruct (strcmp (bucket_key ht c) key =? 0).
  - split; [intros [_ H]; discriminate |].
    intros [_ H]. exfalso. apply H. now apply Hs.
  - split; intros [H _]; (split; [exact H |]); [| reflexivity].
    intros E. apply Hs in E. discriminate.
Qed.

Lemma put_hit_free ht key c : occupied ht c = false -> put_hit ht key c = true.
Proof.
  unfold occupied, put_hit. intros H. apply negb_false_iff in H.
  now rewrite H.
Qed.

Lemma put_hit_key ht c :
  put_hit ht (bucket_key ht c) c = true.
Proof.
  unfold put_hit. apply orb_true_iff. right.
  apply strcmp_eqb; [apply cstring_at_is_cstring .. | reflexivity].
Qed.

(** The probe sequence of a key visits every bucket, so [ht_put] finds a
    bucket when one is not occupied. *)
Lemma find_free ht key index :
  ht_wf ht -> 0 <= index < table_size ht ->
  (exists c, 0 <= c < table_size ht /\ occupied ht c = false) ->
  exists j, find_from (fun j => put_hit ht key (probe ht index j))
              (Z.to_nat (table_size ht)) 0 = Some j.
Proof.
  intros Hwf Hidx (c & Hc & Hfree).
  destruct (probe_surj ht index c Hwf Hidx Hc) as (j & Hj & Hp).
  apply (find_from_exists _ _ 0 j); [lia |].
  rewrite Hp. now apply put_hit_free.
Qed.

Lemma filter_length_lt {A} (f : A -> bool) (l : list A) :
  (length (filter f l) < length l)%nat -> exists x, In x l /\ f x = false.
Proof.
  induction l as [| a l IH]; cbn [filter length]; [lia |].
  destruct (f a) eqn:E.
  - cbn [length]. intros H. destruct IH as (x & Hx & Hf); [lia |].
    exists x. split; [now right | exact Hf].
  - intros _. exists a. split; [now left | exact E].
Qed.

Lemma occupancy_free ht :
  occupancy ht < table_size ht ->
  exists c, 0 <= c < table_size ht /\ occupied ht c = false.
Proof.
  unfold occupancy. intros H.
  destruct (filter_length_lt (fun i => occupied ht (Z.of_nat i))
              (seq 0 (Z.to_nat (table_size ht)))) as (i & Hi & Hf).
  - rewrite length_seq. lia.
  - apply in_seq in Hi. exists (Z.of_nat i). split; [lia | exact Hf].
Qed.

(** What a successful [ht_put] does: it stores into the first bucket of the
    probe sequence that is not occupied or holds the key. *)
Lemma ht_put_true ht key value ht' :
  ht_wf ht -> ht_put ht key value = (true, ht') ->
  exists j,
    0 <= j < table_size ht /\
    0 <= probe ht (hash_function key mod table_size ht) j < table_size ht /\
    put_hit ht key (probe ht (hash_function key mod table_size ht) j) = true /\
    (forall j', 0 <= j' < j ->
       put_hit ht key (probe ht (hash_function key mod table_size ht) j')
       = false) /\
    ht' = ht_store ht
            (probe ht (hash_function key mod table_size ht) j * bucket_size ht)
            key value.
Proof.
  intros Hwf H. unfold ht_put in H. rewrite ht_put_loop_find in H.
  destruct (find_from _ _ _) as [j |] eqn:E; [| discriminate].
  injection H as <-.
  apply find_from_Some in E. destruct E as (Hr & Hhit & Hbefore).
  pose proof (wf_table _ Hwf).
  assert (Hj : 0 <= j < table_size ht) by lia.
  pose proof (probe_range ht _ j Hwf (hash_index_range ht key Hwf) Hj) as Hp.
  exists j. repeat split; try lia; try assumption.
  now rewrite bucket_of_eq.
Qed.

Lemma ht_put_false ht key value ht' :
  ht_put ht key value = (false, ht') -> ht' = ht.
Proof.
  unfold ht_put. rewrite ht_put_loop_find.
  destruct (find_from _ _ _); [discriminate | now intros [= <-]].
Qed.

Lemma ht_put_free ht key value :
  ht_wf ht -> occupancy ht < table_size ht ->
  fst (ht_put ht key value) = true.
Proof.
  intros Hwf Hocc. unfold ht_put. rewrite ht_put_loop_find.
  destruct (find_free ht key (hash_function key mod table_size ht) Hwf
              (hash_index_range ht key Hwf) (occupancy_free ht Hocc)) as [j ->].
  reflexivity.
Qed.

(** After [ht_put] has stored [key] with [value], [ht_get] of [key] returns
    [value], provided the key was stored whole. *)
Lemma ht_get_after_put ht key value ht' :
  ht_wf ht -> is_cstring key ->
  Z.of_nat (length value) = value_size ht ->
  firstn (Z.to_nat (max_key_length ht - 1)) key = key ->
  ht_put ht key value = (true, ht') ->
  fst (ht_get ht' key) = Some value.
Proof.
  intros Hwf Hkey Hv Hfit Hput.
  destruct (ht_put_true ht key value ht' Hwf Hput)
    as (j & Hj & Hc & Hhit & Hbefore & ->).
  set (index := hash_function key mod table_size ht) in *.
  set (c := probe ht index j) in *.
  pose proof (hash_index_range ht key Hwf) as Hidx. fold index in Hidx.
  destruct (ht_store_fields ht (c * bucket_size ht) key value)
    as (F1 & F2 & F3 & F4 & F5).
  unfold ht_get. cbn [fst]. rewrite ht_get_loop_find, F1. fold index.
  assert (Hprobe : forall i, probe (ht_store ht (c * bucket_size ht) key value)
                               index i = probe ht index i)
    by (intros i; unfold probe; now rewrite F1).
  rewrite (find_from_first _ _ 0 j).
  - rewrite Hprobe. fold c. rewrite occupied_store, ht_store_value by assumption.
    now rewrite Z.eqb_refl.
  - lia.
  - rewrite Hprobe. fold c. rewrite put_hit_store by assumption.
    rewrite Z.eqb_refl, Hfit. now apply strcmp_eqb.
  - intros j' Hj'. rewrite Hprobe.
    pose proof (probe_range ht index j' Hwf Hidx ltac:(lia)) as Hc'.
    rewrite put_hit_store by assumption.
    destruct (Z.eqb_spec (probe ht index j') c) as [E | _].
    + apply probe_inj in E; try assumption; lia.
    + apply Hbefore. lia.
Qed.

Lemma firstn_fits (key : list byte) n :
  Z.of_nat (length key) < n -> firstn (Z.to_nat (n - 1)) key = key.
Proof. intros H. apply firstn_all2. lia. Qed.

(** X14. Round trip for keys shorter than [max_key_length]: with an
    unoccupied bucket in the table, [ht_put] succeeds and [ht_get] of the
    same key returns the bytes of the value. *)
Theorem ht_put_get ht key value :
  ht_wf ht -> is_cstring key ->
  Z.of_nat (length key) < max_key_length ht ->
  Z.of_nat (length value) = value_size ht ->
  occupancy ht < table_size ht ->
  fst (ht_put ht key value) = true /\
  fst (ht_get (snd (ht_put ht key value)) key) = Some value.
Proof.
  intros Hwf Hkey Hlen Hv Hocc.
  pose proof (ht_put_free ht key value Hwf Hocc) as Hok.
  split; [exact Hok |].
  destruct (ht_put ht key value) as [ok ht'] eqn:E. cbn [fst snd] in *. subst ok.
  eapply ht_get_after_put; eauto using firstn_fits.
Qed.

(** *** [ht_init] *)

Section Init.
Variables (mem : list byte) (n mkl vs : Z).
Hypothesis Hn : 0 < n.
Hypothesis Hmkl : 0 < mkl.
Hypothesis Hvs : 0 <= vs.
Hypothesis Hregion : n * (mkl + vs + 1) <= Z.of_nat (length mem).
Hypothesis Haddr : Z.of_nat (length mem) < 2 ^ 64.

Lemma ht_init_bucket_size : bucket_size (ht_init mem n mkl vs) = mkl + vs + 1.
Proof. cbn. apply size_t_small. nia. Qed.

Lemma ht_init_load8 off :
  0 <= off < n * (mkl + vs + 1) ->
  load8 (memory (ht_init mem n mkl vs)) off = Byte.x00.
Proof.
  intros Hoff. cbn [ht_init memory]. unfold memset.
  rewrite (size_t_small (mkl + vs + 1)) by nia.
  rewrite (size_t_small (n * _)) by lia.
  rewrite load8_store_bytes; rewrite ?repeat_length; try lia.
  destruct (Z.leb_spec 0 off); destruct (Z.ltb_spec off (0 + Z.of_nat (Z.to_nat (n * (mkl + vs + 1)))));
    cbn [andb]; try lia.
  apply nth_repeat.
Qed.

Lemma ht_init_wf : ht_wf (ht_init mem n mkl vs).
Proof.
  pose proof ht_init_bucket_size as Hbs.
  assert (Hlen : length (memory (ht_init mem n mkl vs)) = length mem)
    by (cbn [ht_init memory]; unfold memset; apply length_store_bytes).
  constructor; rewrite ?Hbs, ?Hlen;
    cbn [ht_init table_size max_key_length value_size]; try lia.
  intros c Hc. apply ht_init_load8. nia.
Qed.

Lemma ht_init_free c :
  0 <= c < n -> occupied (ht_init mem n mkl vs) c = false.
Proof.
  intros Hc. unfold occupied, bucket_flag, occupied_flag_of.
  rewrite bucket_of_eq by (apply ht_init_wf || exact Hc).
  rewrite ht_init_bucket_size. cbn [max_key_length value_size ht_init].
  rewrite ht_init_load8 by nia. reflexivity.
Qed.

End Init.

(** *** [ht_put] keeps the table well formed *)

Lemma ht_put_wf ht key value :
  ht_wf ht -> Z.of_nat (length value) = value_size ht ->
  ht_wf (snd (ht_put ht key value)).
Proof.
  intros Hwf Hv. destruct (ht_put ht key value) as [[|] ht'] eqn:E; cbn [snd].
  - destruct (ht_put_true ht key value ht' Hwf E) as (j & Hj & Hc & _ & _ & ->).
    now apply ht_store_wf.
  - apply ht_put_false in E. now subst.
Qed.

(** *** [ht_remove] only clears a flag *)

Lemma ht_remove_cases ht key :
  ht_wf ht ->
  ht_remove ht key = (false, ht) \/
  exists c, 0 <= c < table_size ht /\
    ht_remove ht key = (true, clear_flag ht c).
Proof.
  intros Hwf. unfold ht_remove. rewrite ht_remove_loop_find.
  destruct (find_from _ _ _) as [j |] eqn:E; [| now left].
  apply find_from_Some in E. destruct E as (Hr & _ & _).
  pose proof (wf_table _ Hwf).
  pose proof (probe_range ht _ j Hwf (hash_index_range ht key Hwf) ltac:(lia)) as Hp.
  destruct (occupied ht _); [| now left].
  right. eexists. split; [exact Hp |].
  unfold clear_flag, occupied_flag_of. now rewrite bucket_of_eq.
Qed.

Lemma ht_remove_false ht key ht' :
  ht_remove ht key = (false, ht') -> ht' = ht.
Proof.
  unfold ht_remove. rewrite ht_remove_loop_find.
  destruct (find_from _ _ _); [| now intros [= <-]].
  destruct (occupied ht _); [discriminate | now intros [= <-]].
Qed.

Section ClearFlag.
Variables (ht : fixed_hash_table_t) (c : Z).
Hypothesis Hwf : ht_wf ht.
Hypothesis Hc : 0 <= c < table_size ht.

Lemma clear_flag_load8 off :
  off <> c * bucket_size ht + max_key_length ht + value_size ht ->
  load8 (memory (clear_flag ht c)) off = load8 (memory ht) off.
Proof. intros Hne. unfold clear_flag. cbn [set_memory memory]. now apply load8_store8_ne. Qed.

Lemma clear_flag_wf : ht_wf (clear_flag ht c).
Proof.
  pose proof Hwf as [Hn Hk Hvs Hb Hr Ha Ht].
  constructor; unfold clear_flag;
    cbn [set_memory table_size max_key_length value_size bucket_size memory];
    rewrite ?length_store8; try assumption.
  intros c' Hc'. rewrite load8_store8_ne; [now apply Ht |].
  destruct (Z.eq_dec c' c) as [-> | Hne]; [lia |].
  pose proof (bucket_apart ht c c' Hwf ltac:(congruence)). lia.
Qed.

Lemma clear_flag_key c' :
  0 <= c' < table_size ht -> bucket_key (clear_flag ht c) c' = bucket_key ht c'.
Proof.
  intros Hc'. symmetry. apply bucket_key_ext; try assumption; [reflexivity |].
  intros off Hoff. symmetry. apply clear_flag_load8.
  pose proof Hwf as [Hn Hk Hvs Hb Hr Ha Ht].
  destruct (Z.eq_dec c' c) as [-> | Hne]; [lia |].
  pose proof (bucket_apart ht c c' Hwf ltac:(congruence)). lia.
Qed.

Lemma clear_flag_occupied c' :
  0 <= c' < table_size ht ->
  occupied (clear_flag ht c) c' = true -> occupied ht c' = true.
Proof.
  intros Hc'. unfold occupied, bucket_flag, occupied_flag_of.
  replace (bucket_of (clear_flag ht c) c') with (bucket_of ht c') by reflexivity.
  rewrite bucket_of_eq by assumption. unfold clear_flag.
  cbn [set_memory max_key_length value_size memory].
  rewrite load8_store8.
  destruct (Z.eqb_spec
              (c' * bucket_size ht + max_key_length ht + value_size ht)
              (c * bucket_size ht + max_key_length ht + value_size ht));
    cbn [andb]; [| auto].
  pose proof (bucket_bounds ht c Hwf Hc).
  pose proof Hwf as [Hn Hk Hvs Hb Hr Ha Ht].
  replace (in_range _ _) with true; [discriminate |].
  symmetry. apply in_range_true. lia.
Qed.

Lemma clear_flag_unique : unique_keys ht -> unique_keys (clear_flag ht c).
Proof.
  intros Hu c1 c2 Hc1 Hc2 Ho1 Ho2 Hk.
  unfold clear_flag in Hc1, Hc2. cbn [set_memory table_size] in Hc1, Hc2.
  rewrite !clear_flag_key in Hk by assumption.
  apply Hu; auto using clear_flag_occupied.
Qed.

End ClearFlag.

(** *** Keys stay apart under guarded calls *)

Lemma absent_key_absent ht key :
  is_cstring key -> absent ht key = true -> key_absent ht key.
Proof.
  intros Hkey Ha c Hc Hocc Hk. unfold absent in Ha.
  rewrite forallb_forall in Ha.
  specialize (Ha (Z.to_nat c)). rewrite Z2Nat.id in Ha by lia.
  rewrite Hocc, Hk in Ha.
  replace (strcmp key key =? 0) with true in Ha
    by (symmetry; now apply strcmp_eqb).
  cbn in Ha. assert (false = true); [| discriminate].
  apply Ha. apply in_seq. lia.
Qed.

Lemma key_absent_absent ht key :
  is_cstring key -> key_absent ht key -> absent ht key = true.
Proof.
  intros Hkey Ha. unfold absent. apply forallb_forall. intros i Hi.
  apply in_seq in Hi.
  destruct (occupied ht (Z.of_nat i)) eqn:Hocc; [| reflexivity].
  destruct (strcmp (bucket_key ht (Z.of_nat i)) key =? 0) eqn:Es;
    [| reflexivity].
  apply strcmp_eqb in Es; [| apply cstring_at_is_cstring | assumption].
  exfalso. apply (Ha (Z.of_nat i)); [lia | assumption | assumption].
Qed.

(** When [ht_get] finds the key, the bucket [ht_put] stores into is
    occupied and holds it. *)
Lemma found_hit ht key j :
  is_cstring key ->
  0 <= j < table_size ht ->
  put_hit ht key (probe ht (hash_function key mod table_size ht) j) = true ->
  (forall j', 0 <= j' < j ->
     put_hit ht key (probe ht (hash_function key mod table_size ht) j')
     = false) ->
  found ht key = true ->
  occupied ht (probe ht (hash_function key mod table_size ht) j) = true /\
  bucket_key ht (probe ht (hash_function key mod table_size ht) j) = key.
Proof.
  intros Hkey Hj Hhit Hbefore Hf.
  unfold found, ht_get in Hf. cbn [fst] in Hf. rewrite ht_get_loop_find in Hf.
  rewrite (find_from_first _ _ 0 j) in Hf;
    [| lia | exact Hhit | intros; apply Hbefore; lia].
  destruct (occupied ht _) eqn:Hocc; [| discriminate].
  split; [reflexivity |].
  unfold put_hit in Hhit. unfold occupied in Hocc.
  destruct (Byte.eqb _ Byte.x00); [discriminate |]. cbn [orb] in Hhit.
  apply strcmp_eqb in Hhit; [exact Hhit | apply cstring_at_is_cstring | exact Hkey].
Qed.

Lemma ht_put_unique ht key value :
  ht_wf ht -> unique_keys ht -> is_cstring key ->
  Z.of_nat (length key) < max_key_length ht ->
  Z.of_nat (length value) = value_size ht ->
  found ht key = true \/ key_absent ht key ->
  unique_keys (snd (ht_put ht key value)).
Proof.
  intros Hwf Hu Hkey Hlen Hv Hg.
  destruct (ht_put ht key value) as [[|] ht'] eqn:E; cbn [snd];
    [| apply ht_put_false in E; now subst].
  destruct (ht_put_true ht key value ht' Hwf E)
    as (j & Hj & Hc & Hhit & Hbefore & ->).
  set (c := probe ht (hash_function key mod table_size ht) j) in *.
  destruct (ht_store_fields ht (c * bucket_size ht) key value)
    as (F1 & _).
  pose proof (firstn_fits key (max_key_length ht) Hlen) as Hfit.
  assert (Hother : forall c0, 0 <= c0 < table_size ht -> c0 <> c ->
            occupied ht c0 = true -> bucket_key ht c0 <> key).
  { destruct Hg as [Hf | Ha].
    - destruct (found_hit ht key j Hkey Hj Hhit Hbefore Hf) as [Hocc Hkc].
      fold c in Hocc, Hkc.
      intros c0 Hc0 Hne Ho0 Hk0. apply Hne. apply Hu; congruence.
    - intros c0 Hc0 _ Ho0. now apply Ha. }
  intros c1 c2 Hc1 Hc2. rewrite F1 in Hc1, Hc2.
  rewrite !occupied_store, !ht_store_key by assumption. rewrite Hfit.
  destruct (Z.eqb_spec c1 c) as [-> | Hn1];
    destruct (Z.eqb_spec c2 c) as [-> | Hn2]; intros Ho1 Ho2 Hk.
  - reflexivity.
  - exfalso. apply (Hother c2); auto.
  - exfalso. apply (Hother c1); auto.
  - now apply Hu.
Qed.

(** X22. The guard of [ht_put] leaves out no more than it must: a put of
    a key that [ht_get] does not find while an occupied bucket holds it goes
    to an unoccupied bucket, and two occupied buckets hold the key
    afterwards. *)
Lemma ht_put_unguarded ht key value :
  ht_wf ht -> is_cstring key ->
  Z.of_nat (length key) < max_key_length ht ->
  Z.of_nat (length value) = value_size ht ->
  found ht key = false ->
  (exists c, 0 <= c < table_size ht /\
     occupied ht c = true /\ bucket_key ht c = key) ->
  ~ unique_keys (snd (ht_put ht key value)).
Proof.
  intros Hwf Hkey Hlen Hv Hf (c2 & Hc2 & Ho2 & Hk2) Hu.
  pose proof (hash_index_range ht key Hwf) as Hidx.
  destruct (probe_surj ht _ c2 Hwf Hidx Hc2) as (i & Hi & Hp).
  destruct (find_from_exists
              (fun j => put_hit ht key
                          (probe ht (hash_function key mod table_size ht) j))
              (Z.to_nat (table_size ht)) 0 i ltac:(lia)) as [j Hfind].
  { rewrite Hp, <- Hk2. apply put_hit_key. }
  pose proof (find_from_Some _ _ _ _ Hfind) as (Hj & _ & _).
  unfold found, ht_get in Hf. cbn [fst] in Hf.
  rewrite ht_get_loop_find, Hfind in Hf.
  unfold ht_put in Hu. rewrite ht_put_loop_find, Hfind in Hu. cbn [snd] in Hu.
  set (c := probe ht (hash_function key mod table_size ht) j) in *.
  assert (Hc : 0 <= c < table_size ht) by (apply probe_range; (assumption || lia)).
  rewrite bucket_of_eq in Hu by assumption.
  destruct (occupied ht c) eqn:Hocc; [discriminate |].
  destruct (ht_store_fields ht (c * bucket_size ht) key value) as (F1 & _).
  assert (E : c2 = c); [| congruence].
  apply Hu; rewrite ?F1; try assumption;
    rewrite ?occupied_store, ?ht_store_key by assumption.
  - destruct (c2 =? c); [reflexivity | exact Ho2].
  - now rewrite Z.eqb_refl.
  - rewrite Z.eqb_refl, (firstn_fits key _ Hlen).
    destruct (c2 =? c); [reflexivity | exact Hk2].
Qed.

Lemma ht_step_guard ht op :
  ht_wf ht -> unique_keys ht -> op_guard ht op ->
  ht_wf (ht_step ht op) /\ unique_keys (ht_step ht op).
Proof.
  intros Hwf Hu Hop.
  destruct op as [key value | key | key | key]; cbn [ht_step op_guard] in *.
  - destruct Hop as ((Hkey & Hlen & Hv) & Hg).
    split; [now apply ht_put_wf | now apply ht_put_unique].
  - now split.
  - destruct (ht_remove_cases ht key Hwf) as [E | (c & Hc & E)]; rewrite E;
      cbn [snd]; [now split |].
    split; [now apply clear_flag_wf | now apply clear_flag_unique].
  - now split.
Qed.

Lemma ht_run_guard ops : forall ht,
  ht_wf ht -> unique_keys ht -> ops_guard ht ops ->
  unique_keys (ht_run ht ops).
Proof.
  induction ops as [| op ops IH]; intros ht Hwf Hu Hops; [exact Hu |].
  destruct Hops as [Hop Hops].
  destruct (ht_step_guard ht op Hwf Hu Hop) as [Hwf1 Hu1].
  cbn [ht_run fold_left]. now apply IH.
Qed.

(** C7, as amended.  No two occupied buckets hold equal keys in a table
    reached from [ht_init] by calls of [ht_put], [ht_get], [ht_remove] and
    [ht_contains], in any order, where every [ht_put] has a key shorter than
    [max_key_length] and a value of [value_size] bytes and is made when
    [ht_get] finds its key or no occupied bucket holds it, and every
    [ht_contains] is made with [value_size <= 16] or for a key that is not
    found. *)
Theorem ht_unique_keys_guarded mem n mkl vs ops :
  0 < n -> 0 < mkl -> 0 <= vs ->
  n * (mkl + vs + 1) <= Z.of_nat (length mem) ->
  Z.of_nat (length mem) < 2 ^ 64 ->
  ops_guard (ht_init mem n mkl vs) ops ->
  unique_keys (ht_run (ht_init mem n mkl vs) ops).
Proof.
  intros Hn Hmkl Hvs Hregion Haddr Hops.
  pose proof (ht_init_wf mem n mkl vs Hn Hmkl Hvs Hregion Haddr) as Hwf.
  apply ht_run_guard; [exact Hwf | | exact Hops].
  intros c1 c2 Hc1 _ Ho1. cbn [ht_init table_size] in Hc1.
  rewrite (ht_init_free mem n mkl vs Hn Hmkl Hvs Hregion Haddr c1 Hc1) in Ho1.
  discriminate.
Qed.

Lemma ht_unique_keys_guarded_witness :
  (0 < 10 /\ 0 < 16 /\ 0 <= 4 /\
   10 * (16 + 4 + 1) <= Z.of_nat (length (repeat Byte.x00 210)) /\
   Z.of_nat (length (repeat Byte.x00 210)) < 2 ^ 64 /\
   ops_guard (ht_init (repeat Byte.x00 210) 10 16 4)
     [OpPut key_temp int_25;
      OpRemove key_temp;
      OpPut key_temp int_26;
      OpGet key_temp;
      OpPut key_a int_25;
      OpPut key_k int_26;
      OpPut key_a int_27;
      OpRemove key_a;
      OpContains key_k]) /\
  unique_keys
    (ht_run (ht_init (repeat Byte.x00 210) 10 16 4)
       [OpPut key_temp int_25;
        OpRemove key_temp;
        OpPut key_temp int_26;
        OpGet key_temp;
        OpPut key_a int_25;
        OpPut key_k int_26;
        OpPut key_a int_27;
        OpRemove key_a;
        OpContains key_k]).
Proof.
  assert (Hg : ops_guard (ht_init (repeat Byte.x00 210) 10 16 4)
     [OpPut key_temp int_25;
      OpRemove key_temp;
      OpPut key_temp int_26;
      OpGet key_temp;
      OpPut key_a int_25;
      OpPut key_k int_26;
      OpPut key_a int_27;
      OpRemove key_a;
      OpContains key_k]).
  { cbn [ops_guard op_guard op_valid].
    repeat
      match goal with
      | |- True => exact I
      | |- True /\ _ => split; [exact I |]
      | |- (_ <= _ \/ _) /\ _ => split; [left; vm_compute; discriminate |]
      | |- ((is_cstring _ /\ _ < _ /\ _ = _) /\ _) /\ _ =>
          split;
          [split;
           [split;
            [repeat constructor; discriminate
            | split; vm_compute; reflexivity]
           | first
               [ left; vm_compute; reflexivity
               | right; apply absent_key_absent;
                 [repeat constructor; discriminate | vm_compute; reflexivity] ] ]
          |]
      end. }
  assert (Hlen : Z.of_nat (length (repeat Byte.x00 210)) = 210) by reflexivity.
  split.
  - rewrite Hlen. repeat (split; [lia |]). exact Hg.
  - apply ht_unique_keys_guarded; rewrite ?Hlen; try lia. exact Hg.
Defined.

(** C7, as stated, fails: keys "a" and "k" start at bucket 7 of a table of
    10; after put "a", put "k", remove "a", put "k", the buckets 7 and 8 are
    occupied and both hold "k". *)
Lemma ht_unique_keys_remove_put :
  Forall (op_valid 16 4)
    [OpPut key_a int_25;
     OpPut key_k int_26;
     OpRemove key_a;
     OpPut key_k int_27] /\
  ~ unique_keys
      (ht_run (ht_init (repeat Byte.x00 210) 10 16 4)
         [OpPut key_a int_25;
          OpPut key_k int_26;
          OpRemove key_a;
          OpPut key_k int_27]).
Proof.
  split; [repeat constructor; cbn; try lia; discriminate |].
  intros H. specialize (H 7 8).
  assert (E : 7 = 8); [| discriminate].
  apply H; try (vm_compute; reflexivity); vm_compute; split; congruence.
Qed.

(** C3. Removal breaks the probe chain.  In a table of 10 buckets the keys
    "a" and "k" both start at bucket 7; "a" is put first and takes bucket 7,
    "k" is put next and goes to bucket 8, where [ht_get] finds it.  After
    [ht_remove] of "a" has succeeded, bucket 7 is not occupied, and [ht_get]
    and [ht_contains] of "k", which probe bucket 7 first, report that the
    key is absent, while bucket 8 is still occupied and holds the key "k"
    and its value. *)
Theorem ht_remove_breaks_probe_chain :
  exists (ht : fixed_hash_table_t) (A B vB : list byte) (cA cB : Z),
    ht = snd (ht_put
                (snd (ht_put (ht_init (repeat Byte.x00 210) 10 16 4)
                        A int_25))
                B vB) /\
    hash_function A mod table_size ht = cA /\
    hash_function B mod table_size ht = cA /\
    occupied ht cA = true /\ bucket_key ht cA = A /\
    cB = probe ht cA 1 /\ cB <> cA /\
    occupied ht cB = true /\ bucket_key ht cB = B /\ bucket_value ht cB = vB /\
    fst (ht_get ht B) = Some vB /\
    fst (ht_remove ht A) = true /\
    occupied (snd (ht_remove ht A)) cA = false /\
    probe (snd (ht_remove ht A)) (hash_function B mod table_size ht) 0 = cA /\
    fst (ht_get (snd (ht_remove ht A)) B) = None /\
    fst (ht_contains (snd (ht_remove ht A)) B) = false /\
    occupied (snd (ht_remove ht A)) cB = true /\
    bucket_key (snd (ht_remove ht A)) cB = B /\
    bucket_value (snd (ht_remove ht A)) cB = vB.
Proof.
  exists (snd (ht_put
                 (snd (ht_put (ht_init (repeat Byte.x00 210) 10 16 4)
                         key_a int_25))
                 key_k int_26)).
  exists key_a, key_k, int_26, 7, 8.
  split; [reflexivity |].
  repeat (split; [vm_compute; first [reflexivity | discriminate] |]).
  vm_compute; reflexivity.
Qed.

(** C2, at an input where the claim fails.  In the empty table of 10
    buckets with [max_key_length = 16] and [value_size = 4], the key
    "0123456789abcdef" has 16 characters; [ht_put] returns true and stores
    its first 15 characters, and [ht_get] of the key returns false. *)
Theorem ht_put_get_full_length_key :
  Z.of_nat (length key_16)
  = max_key_length (ht_init (repeat Byte.x00 210) 10 16 4) /\
  occupancy (ht_init (repeat Byte.x00 210) 10 16 4) = 0 /\
  fst (ht_put (ht_init (repeat Byte.x00 210) 10 16 4)
         key_16
         int_25) = true /\
  fst (ht_get
         (snd (ht_put (ht_init (repeat Byte.x00 210) 10 16 4)
                 key_16
                 int_25))
         key_16) = None.
Proof. repeat split; vm_compute; reflexivity. Qed.

(** C10, at an input where the claim fails.  With [max_key_length = 16] the
    keys "0123456789abcdeX" and "0123456789abcdeY" agree on their first 15
    characters.  [ht_put] of the first returns true and stores
    "0123456789abcde" in bucket 6; [ht_get] then finds neither the second
    key nor the first, [ht_remove] of the second returns false, and [ht_put]
    of the second occupies another bucket: two occupied buckets hold the
    same characters. *)
Theorem ht_keys_with_equal_prefix :
  firstn 15 key_16X
  = firstn 15 key_16Y /\
  fst (ht_put (ht_init (repeat Byte.x00 210) 10 16 4)
         key_16X
         int_25) = true /\
  let ht1 := snd (ht_put (ht_init (repeat Byte.x00 210) 10 16 4)
                    key_16X
                    int_25) in
  bucket_key ht1 6 = key_15 /\
  fst (ht_get ht1 key_16Y) = None /\
  fst (ht_get ht1 key_16X) = None /\
  fst (ht_contains ht1 key_16Y) = false /\
  fst (ht_remove ht1 key_16Y) = false /\
  let ht2 := snd (ht_put ht1 key_16Y
                    int_26) in
  occupancy ht2 = 2 /\
  occupied ht2 6 = true /\ occupied ht2 7 = true /\
  bucket_key ht2 6 = bucket_key ht2 7.
Proof. cbv zeta. repeat split; vm_compute; reflexivity. Qed.

(** X21. What [ht_put] stores: the first [max_key_length - 1] characters
    of the key at most, with a NUL at index [max_key_length - 1] of the key
    field; a longer key is accepted like any other. *)
Theorem ht_put_stores_prefix ht key value :
  ht_wf ht -> is_cstring key ->
  Z.of_nat (length value) = value_size ht ->
  (occupancy ht < table_size ht -> fst (ht_put ht key value) = true) /\
  (forall ht', ht_put ht key value = (true, ht') ->
     exists c, 0 <= c < table_size ht /\
       occupied ht' c = true /\
       bucket_key ht' c = firstn (Z.to_nat (max_key_length ht - 1)) key /\
       load8 (memory ht') (bucket_of ht' c + max_key_length ht - 1) = Byte.x00 /\
       bucket_value ht' c = value).
Proof.
  intros Hwf Hkey Hv. split; [now apply ht_put_free |].
  intros ht' Hput.
  destruct (ht_put_true ht key value ht' Hwf Hput)
    as (j & Hj & Hc & Hhit & Hbefore & ->).
  set (c := probe ht (hash_function key mod table_size ht) j) in *.
  pose proof (ht_store_wf ht c key value Hwf Hc Hv) as Hwf'.
  destruct (ht_store_fields ht (c * bucket_size ht) key value)
    as (F1 & F2 & F3 & F4 & F5).
  exists c. split; [exact Hc |].
  rewrite occupied_store, ht_store_key, ht_store_value by assumption.
  rewrite Z.eqb_refl. repeat split.
  rewrite bucket_of_eq by (rewrite ?F1; assumption).
  rewrite <- F2. apply (wf_term _ Hwf'). now rewrite F1.
Qed.

Lemma ht_put_stores_prefix_witness :
  fst (ht_put (ht_init (repeat Byte.x00 210) 10 16 4)
         key_18
         int_25) = true.
Proof.
  apply (ht_put_stores_prefix (ht_init (repeat Byte.x00 210) 10 16 4)
           key_18
           int_25).
  - apply ht_init_wf; cbn; lia.
  - repeat constructor; discriminate.
  - reflexivity.
  - vm_compute. reflexivity.
Defined.

Lemma ht_put_get_witness :
  fst (ht_put (ht_init (repeat Byte.x00 210) 10 16 4)
         key_temp
         int_25) = true /\
  fst (ht_get
         (snd (ht_put (ht_init (repeat Byte.x00 210) 10 16 4)
                 key_temp
                 int_25))
         key_temp)
  = Some int_25.
Proof.
  apply ht_put_get.
  - apply ht_init_wf; cbn; lia.
  - repeat constructor; discriminate.
  - cbn. lia.
  - reflexivity.
  - vm_compute. reflexivity.
Defined.

(** *** Further properties of the calls *)

Lemma find_from_all_false P n i :
  (forall j, i <= j < i + Z.of_nat n -> P j = false) -> find_from P n i = None.
Proof.
  intros H. destruct (find_from P n i) as [j |] eqn:E; [| reflexivity].
  apply find_from_Some in E. destruct E as (Hr & Hj & _).
  rewrite H in Hj by exact Hr. discriminate.
Qed.

Lemma occupancy_ext ht ht' :
  table_size ht' = table_size ht ->
  (forall c, 0 <= c < table_size ht -> occupied ht' c = occupied ht c) ->
  occupancy ht' = occupancy ht.
Proof.
  unfold occupancy. intros Hn H. rewrite Hn. do 2 f_equal.
  apply filter_ext_in. intros i Hi. apply in_seq in Hi. apply H. lia.
Qed.

Lemma filter_none {A} (f : A -> bool) (l : list A) :
  (forall x, In x l -> f x = false) -> filter f l = [].
Proof.
  induction l as [| x l IH]; intros H; [reflexivity |]. cbn [filter].
  rewrite (H x) by now left. apply IH. intros y Hy. apply H. now right.
Qed.

(** A string ends at the first NUL: with a NUL [k] bytes after [off], the
    string at [off] has at most [k] characters. *)
Lemma cstring_at_length m (k : nat) : forall off,
  0 <= off -> load8 m (off + Z.of_nat k) = Byte.x00 ->
  Z.of_nat (length (cstring_at m off)) <= Z.of_nat k.
Proof.
  induction k as [| k IH]; intros off Hoff Hz;
    rewrite cstring_at_unfold by exact Hoff.
  - rewrite Z.add_0_r in Hz. rewrite Hz. cbn. lia.
  - destruct (Byte.eqb (load8 m off) Byte.x00); [cbn; lia |].
    cbn [length]. specialize (IH (off + 1) ltac:(lia)).
    replace (off + 1 + Z.of_nat k) with (off + Z.of_nat (S k)) in IH by lia.
    specialize (IH Hz). lia.
Qed.

(** The probing of a key in a table stops at probe [j], in an occupied
    bucket that holds the key. *)
Lemma found_find ht key :
  is_cstring key -> found ht key = true ->
  exists j,
    find_from (fun j => put_hit ht key
                          (probe ht (hash_function key mod table_size ht) j))
      (Z.to_nat (table_size ht)) 0 = Some j /\
    0 <= j < table_size ht /\
    occupied ht (probe ht (hash_function key mod table_size ht) j) = true /\
    bucket_key ht (probe ht (hash_function key mod table_size ht) j) = key.
Proof.
  intros Hkey Hf. pose proof Hf as Hf0.
  unfold found, ht_get in Hf. cbn [fst] in Hf. rewrite ht_get_loop_find in Hf.
  destruct (find_from _ _ _) as [j |] eqn:E; [| discriminate].
  pose proof (find_from_Some _ _ _ _ E) as (Hj & Hhit & Hbefore).
  assert (Hj' : 0 <= j < table_size ht) by lia.
  destruct (found_hit ht key j Hkey Hj' Hhit) as [Hocc Hk];
    [intros; apply Hbefore; lia | exact Hf0 |].
  exists j. auto.
Qed.

Lemma ht_step_wf ht op :
  ht_wf ht ->
  match op with
  | OpPut _ value => Z.of_nat (length value) = value_size ht
  | _ => True
  end ->
  ht_wf (ht_step ht op) /\
  table_size (ht_step ht op) = table_size ht /\
  max_key_length (ht_step ht op) = max_key_length ht /\
  value_size (ht_step ht op) = value_size ht /\
  bucket_size (ht_step ht op) = bucket_size ht /\
  length (memory (ht_step ht op)) = length (memory ht).
Proof.
  intros Hwf Hop. destruct op as [key value | key | key | key]; cbn [ht_step].
  - split; [now apply ht_put_wf |].
    unfold ht_put. rewrite ht_put_loop_find.
    destruct (find_from _ _ _); cbn [snd]; [| auto 6].
    apply ht_store_fields.
  - cbn. auto 6.
  - destruct (ht_remove_cases ht key Hwf) as [E | (c & Hc & E)]; rewrite E;
      cbn [snd]; [auto 6 |].
    split; [now apply clear_flag_wf |].
    unfold clear_flag.
    cbn [set_memory table_size max_key_length value_size bucket_size memory].
    rewrite length_store8. auto 6.
  - cbn. auto 6.
Qed.

Lemma ht_run_wf ops : forall ht,
  ht_wf ht ->
  Forall (op_args_ok (value_size ht)) ops ->
  ht_wf (ht_run ht ops) /\
  table_size (ht_run ht ops) = table_size ht /\
  max_key_length (ht_run ht ops) = max_key_length ht /\
  value_size (ht_run ht ops) = value_size ht /\
  bucket_size (ht_run ht ops) = bucket_size ht /\
  length (memory (ht_run ht ops)) = length (memory ht).
Proof.
  induction ops as [| op ops IH]; intros ht Hwf Hops; [auto 6 |].
  pose proof (Forall_inv Hops) as Hop.
  pose proof (Forall_inv_tail Hops) as Hops'.
  destruct (ht_step_wf ht op Hwf) as (Hwf1 & F1 & F2 & F3 & F4 & F5).
  { destruct op; cbn in Hop |- *; tauto. }
  cbn [ht_run fold_left]. change (fold_left ht_step ops ?h) with (ht_run h ops).
  destruct (IH (ht_step ht op) Hwf1) as (Hwf2 & G1 & G2 & G3 & G4 & G5).
  { now rewrite F3. }
  split; [exact Hwf2 |]. repeat split; congruence.
Qed.

(** X15. The table reached from [ht_init] by any calls, with keys of any
    length, keeps its sizes and the length of its region, and the last byte
    of every key field is NUL: the key a bucket holds has fewer than
    [max_key_length] characters and ends inside its field. *)
Theorem ht_reachable_wf mem n mkl vs ops :
  0 < n -> 0 < mkl -> 0 <= vs ->
  n * (mkl + vs + 1) <= Z.of_nat (length mem) ->
  Z.of_nat (length mem) < 2 ^ 64 ->
  Forall (op_args_ok vs) ops ->
  let ht := ht_run (ht_init mem n mkl vs) ops in
  table_size ht = n /\ max_key_length ht = mkl /\ value_size ht = vs /\
  bucket_size ht = mkl + vs + 1 /\
  length (memory ht) = length mem /\
  (forall c, 0 <= c < n ->
     load8 (memory ht) (c * (mkl + vs + 1) + mkl - 1) = Byte.x00) /\
  (forall c, 0 <= c < n ->
     Z.of_nat (length (bucket_key ht c)) < mkl).
Proof.
  intros Hn Hmkl Hvs Hregion Haddr Hops. cbv zeta.
  pose proof (ht_init_wf mem n mkl vs Hn Hmkl Hvs Hregion Haddr) as Hwf.
  destruct (ht_run_wf ops _ Hwf Hops) as (Hwf1 & F1 & F2 & F3 & F4 & F5).
  cbn [ht_init table_size max_key_length value_size] in F1, F2, F3.
  rewrite (ht_init_bucket_size mem n mkl vs) in F4 by assumption.
  assert (Hlen : length (memory (ht_init mem n mkl vs)) = length mem)
    by (cbn [ht_init memory]; unfold memset; apply length_store_bytes).
  rewrite Hlen in F5.
  assert (Hterm : forall c, 0 <= c < n ->
            load8 (memory (ht_run (ht_init mem n mkl vs) ops))
              (c * (mkl + vs + 1) + mkl - 1) = Byte.x00).
  { intros c Hc. pose proof (wf_term _ Hwf1 c) as Ht.
    rewrite F1, F2, F4 in Ht. now apply Ht. }
  repeat (split; [assumption |]).
  intros c Hc. unfold bucket_key.
  rewrite bucket_of_eq by (rewrite ?F1; assumption). rewrite F4.
  pose proof (bucket_bounds _ c Hwf1 ltac:(rewrite F1; exact Hc)) as Hb.
  rewrite F4 in Hb.
  pose proof (cstring_at_length (memory (ht_run (ht_init mem n mkl vs) ops))
                (Z.to_nat (mkl - 1)) (c * (mkl + vs + 1)) ltac:(lia)) as Hl.
  rewrite Z2Nat.id in Hl by lia.
  replace (c * (mkl + vs + 1) + (mkl - 1))
    with (c * (mkl + vs + 1) + mkl - 1) in Hl by lia.
  specialize (Hl (Hterm c Hc)). lia.
Qed.

Lemma ht_reachable_wf_witness :
  (0 < 10 /\ 0 < 16 /\ 0 <= 4 /\
   10 * (16 + 4 + 1) <= Z.of_nat (length (repeat Byte.x00 210)) /\
   Z.of_nat (length (repeat Byte.x00 210)) < 2 ^ 64 /\
   Forall (op_args_ok 4)
     [OpPut key_18 int_25; OpPut key_16X int_26; OpRemove key_a;
      OpContains key_temp]) /\
  Z.of_nat
    (length
       (bucket_key
          (ht_run (ht_init (repeat Byte.x00 210) 10 16 4)
             [OpPut key_18 int_25; OpPut key_16X int_26; OpRemove key_a;
              OpContains key_temp]) 6)) < 16.
Proof.
  assert (Hlen : Z.of_nat (length (repeat Byte.x00 210)) = 210) by reflexivity.
  assert (Hops : Forall (op_args_ok 4)
     [OpPut key_18 int_25; OpPut key_16X int_26; OpRemove key_a;
      OpContains key_temp]).
  { repeat constructor; try discriminate; cbn; lia. }
  split; [rewrite Hlen; repeat (split; [lia |]); exact Hops |].
  destruct (ht_reachable_wf (repeat Byte.x00 210) 10 16 4
              [OpPut key_18 int_25; OpPut key_16X int_26; OpRemove key_a;
               OpContains key_temp])
    as (_ & _ & _ & _ & _ & _ & Hk); rewrite ?Hlen; try lia; [exact Hops |].
  apply Hk. lia.
Defined.

(** *** The empty table *)

(** X16. In the table [ht_init] gives, no bucket is occupied: [ht_get],
    [ht_contains] and [ht_remove] report every key absent, and [ht_remove]
    leaves the table as it is. *)
Theorem ht_init_empty mem n mkl vs key :
  0 < n -> 0 < mkl -> 0 <= vs ->
  n * (mkl + vs + 1) <= Z.of_nat (length mem) ->
  Z.of_nat (length mem) < 2 ^ 64 ->
  occupancy (ht_init mem n mkl vs) = 0 /\
  fst (ht_get (ht_init mem n mkl vs) key) = None /\
  fst (ht_contains (ht_init mem n mkl vs) key) = false /\
  ht_remove (ht_init mem n mkl vs) key = (false, ht_init mem n mkl vs).
Proof.
  intros Hn Hmkl Hvs Hregion Haddr.
  pose proof (ht_init_wf mem n mkl vs Hn Hmkl Hvs Hregion Haddr) as Hwf.
  pose proof (ht_init_free mem n mkl vs Hn Hmkl Hvs Hregion Haddr) as Hfree.
  set (ht := ht_init mem n mkl vs) in *.
  assert (Hts : table_size ht = n) by reflexivity.
  pose proof (hash_index_range ht key Hwf) as Hidx.
  pose proof (probe_range ht _ 0 Hwf Hidx ltac:(lia)) as Hp.
  assert (Hfind : find_from
            (fun j => put_hit ht key
                        (probe ht (hash_function key mod table_size ht) j))
            (Z.to_nat (table_size ht)) 0 = Some 0).
  { apply find_from_first; [lia | | intros; lia].
    apply put_hit_free. apply Hfree. lia. }
  assert (Hget : fst (ht_get ht key) = None).
  { unfold ht_get. cbn [fst]. rewrite ht_get_loop_find, Hfind.
    rewrite Hfree by lia. reflexivity. }
  split; [| split; [exact Hget | split]].
  - unfold occupancy. rewrite filter_none; [reflexivity |].
    intros i Hi. apply in_seq in Hi. apply Hfree. lia.
  - unfold ht_contains, ht_get in *. cbn [fst] in *. now rewrite Hget.
  - unfold ht_remove. rewrite ht_remove_loop_find, Hfind.
    rewrite Hfree by lia. reflexivity.
Qed.

Lemma ht_init_empty_witness :
  (0 < 10 /\ 0 < 16 /\ 0 <= 4 /\
   10 * (16 + 4 + 1) <= Z.of_nat (length (repeat Byte.x01 210)) /\
   Z.of_nat (length (repeat Byte.x01 210)) < 2 ^ 64) /\
  fst (ht_get (ht_init (repeat Byte.x01 210) 10 16 4) key_temp) = None.
Proof.
  assert (Hlen : Z.of_nat (length (repeat Byte.x01 210)) = 210) by reflexivity.
  split; [rewrite Hlen; lia |].
  destruct (ht_init_empty (repeat Byte.x01 210) 10 16 4 key_temp)
    as (_ & Hg & _); rewrite ?Hlen; try lia.
  exact Hg.
Defined.

(** *** Updating a key in place *)

(** X17. [ht_put] of a key that [ht_get] finds overwrites its value in
    place: the call succeeds, [ht_get] then returns the new value, and the
    number of occupied buckets is unchanged. *)
Theorem ht_put_update ht key value :
  ht_wf ht -> is_cstring key ->
  Z.of_nat (length key) < max_key_length ht ->
  Z.of_nat (length value) = value_size ht ->
  found ht key = true ->
  fst (ht_put ht key value) = true /\
  fst (ht_get (snd (ht_put ht key value)) key) = Some value /\
  occupancy (snd (ht_put ht key value)) = occupancy ht.
Proof.
  intros Hwf Hkey Hlen Hv Hf.
  destruct (found_find ht key Hkey Hf) as (j & Hfind & Hj & Hocc & Hk).
  pose proof (hash_index_range ht key Hwf) as Hidx.
  pose proof (probe_range ht _ j Hwf Hidx Hj) as Hc.
  assert (Hput : ht_put ht key value
                 = (true,
                    ht_store ht
                      (probe ht (hash_function key mod table_size ht) j
                       * bucket_size ht) key value)).
  { unfold ht_put. rewrite ht_put_loop_find, Hfind.
    now rewrite bucket_of_eq. }
  split; [now rewrite Hput |].
  split.
  - apply (ht_get_after_put ht key value); try assumption.
    + now apply firstn_fits.
    + rewrite Hput. reflexivity.
  - rewrite Hput. cbn [snd]. apply occupancy_ext.
    + apply ht_store_fields.
    + intros c' Hc'. rewrite occupied_store by assumption.
      destruct (Z.eqb_spec c'
                  (probe ht (hash_function key mod table_size ht) j))
        as [-> | _]; [now rewrite Hocc | reflexivity].
Qed.

Lemma ht_put_update_witness :
  (ht_wf (ht_run (ht_init (repeat Byte.x00 210) 10 16 4)
            [OpPut key_a int_25; OpPut key_k int_26]) /\
   is_cstring key_a /\
   Z.of_nat (length key_a)
   < max_key_length
       (ht_run (ht_init (repeat Byte.x00 210) 10 16 4)
          [OpPut key_a int_25; OpPut key_k int_26]) /\
   Z.of_nat (length int_27)
   = value_size
       (ht_run (ht_init (repeat Byte.x00 210) 10 16 4)
          [OpPut key_a int_25; OpPut key_k int_26]) /\
   found
     (ht_run (ht_init (repeat Byte.x00 210) 10 16 4)
        [OpPut key_a int_25; OpPut key_k int_26]) key_a = true) /\
  fst (ht_get
         (snd (ht_put
                 (ht_run (ht_init (repeat Byte.x00 210) 10 16 4)
                    [OpPut key_a int_25; OpPut key_k int_26])
                 key_a int_27))
         key_a)
  = Some int_27.
Proof.
  assert (Hwf : ht_wf (ht_run (ht_init (repeat Byte.x00 210) 10 16 4)
                         [OpPut key_a int_25; OpPut key_k int_26])).
  { apply ht_run_wf; [apply ht_init_wf; cbn; lia |].
    repeat constructor; discriminate. }
  assert (Hkey : is_cstring key_a) by (repeat constructor; discriminate).
  assert (Hl : Z.of_nat (length key_a)
               < max_key_length
                   (ht_run (ht_init (repeat Byte.x00 210) 10 16 4)
                      [OpPut key_a int_25; OpPut key_k int_26]))
    by (vm_compute; reflexivity).
  assert (Hv : Z.of_nat (length int_27)
               = value_size
                   (ht_run (ht_init (repeat Byte.x00 210) 10 16 4)
                      [OpPut key_a int_25; OpPut key_k int_26]))
    by (vm_compute; reflexivity).
  assert (Hf : found
                 (ht_run (ht_init (repeat Byte.x00 210) 10 16 4)
                    [OpPut key_a int_25; OpPut key_k int_26]) key_a = true)
    by (vm_compute; reflexivity).
  split; [exact (conj Hwf (conj Hkey (conj Hl (conj Hv Hf)))) |].
  exact (proj1 (proj2 (ht_put_update _ key_a int_27 Hwf Hkey Hl Hv Hf))).
Defined.

(** *** [ht_put] leaves the other keys alone *)

(** X18. A key that [ht_get] finds is still found, with the same value,
    after [ht_put] of another key. *)
Theorem ht_put_other ht key value key2 v2 :
  ht_wf ht -> is_cstring key ->
  Z.of_nat (length key) < max_key_length ht ->
  Z.of_nat (length value) = value_size ht ->
  is_cstring key2 -> key2 <> key ->
  fst (ht_get ht key2) = Some v2 ->
  fst (ht_get (snd (ht_put ht key value)) key2) = Some v2.
Proof.
  intros Hwf Hkey Hlen Hv Hkey2 Hne Hget.
  destruct (ht_put ht key value) as [[|] ht'] eqn:E; cbn [snd];
    [| apply ht_put_false in E; now subst].
  destruct (ht_put_true ht key value ht' Hwf E)
    as (j & Hj & Hc & Hhit & Hbefore & ->).
  set (c := probe ht (hash_function key mod table_size ht) j) in *.
  assert (Hf2 : found ht key2 = true) by (unfold found; now rewrite Hget).
  destruct (found_find ht key2 Hkey2 Hf2) as (j2 & Hfind2 & Hj2 & Hocc2 & Hk2).
  pose proof (find_from_Some _ _ _ _ Hfind2) as (_ & Hhit2 & Hbefore2).
  set (index2 := hash_function key2 mod table_size ht) in *.
  set (c2 := probe ht index2 j2) in *.
  pose proof (hash_index_range ht key2 Hwf) as Hidx2. fold index2 in Hidx2.
  pose proof (probe_range ht index2 j2 Hwf Hidx2 Hj2) as Hc2. fold c2 in Hc2.
  assert (Hv2 : v2 = bucket_value ht c2).
  { unfold ht_get in Hget. cbn [fst] in Hget.
    rewrite ht_get_loop_find in Hget. fold index2 in Hget.
    rewrite Hfind2 in Hget. fold c2 in Hget. rewrite Hocc2 in Hget.
    now injection Hget. }
  assert (Hcc : c2 <> c).
  { intros Ecc. rewrite Ecc in Hocc2, Hk2.
    unfold put_hit in Hhit. unfold occupied in Hocc2.
    destruct (Byte.eqb _ Byte.x00); [discriminate |]. cbn [orb] in Hhit.
    apply strcmp_eqb in Hhit; [| apply cstring_at_is_cstring | exact Hkey].
    unfold bucket_key in *. congruence. }
  destruct (ht_store_fields ht (c * bucket_size ht) key value)
    as (F1 & F2 & F3 & F4 & F5).
  pose proof (firstn_fits key (max_key_length ht) Hlen) as Hfit.
  assert (Hprobe : forall i, probe (ht_store ht (c * bucket_size ht) key value)
                               index2 i = probe ht index2 i)
    by (intros i; unfold probe; now rewrite F1).
  unfold ht_get. cbn [fst]. rewrite ht_get_loop_find, F1. fold index2.
  rewrite (find_from_first _ _ 0 j2).
  - rewrite Hprobe. fold c2.
    rewrite occupied_store, ht_store_value by assumption.
    destruct (Z.eqb_spec c2 c) as [Ecc | _]; [contradiction |].
    now rewrite Hocc2, Hv2.
  - lia.
  - rewrite Hprobe. fold c2. rewrite put_hit_store by assumption.
    destruct (Z.eqb_spec c2 c) as [Ecc | _]; [contradiction | exact Hhit2].
  - intros j' Hj'. rewrite Hprobe.
    pose proof (probe_range ht index2 j' Hwf Hidx2 ltac:(lia)) as Hc'.
    rewrite put_hit_store by assumption.
    destruct (Z.eqb_spec (probe ht index2 j') c) as [_ | _];
      [| apply Hbefore2; lia].
    rewrite Hfit. destruct (strcmp key key2 =? 0) eqn:Es; [| reflexivity].
    apply strcmp_eqb in Es; [| assumption | assumption]. congruence.
Qed.

Lemma ht_put_other_witness :
  (ht_wf (ht_run (ht_init (repeat Byte.x00 210) 10 16 4)
            [OpPut key_a int_25]) /\
   is_cstring key_k /\
   Z.of_nat (length key_k)
   < max_key_length
       (ht_run (ht_init (repeat Byte.x00 210) 10 16 4)
          [OpPut key_a int_25]) /\
   Z.of_nat (length int_26)
   = value_size
       (ht_run (ht_init (repeat Byte.x00 210) 10 16 4)
          [OpPut key_a int_25]) /\
   is_cstring key_a /\ key_a <> key_k /\
   fst (ht_get
          (ht_run (ht_init (repeat Byte.x00 210) 10 16 4)
             [OpPut key_a int_25]) key_a) = Some int_25) /\
  fst (ht_get
         (snd (ht_put
                 (ht_run (ht_init (repeat Byte.x00 210) 10 16 4)
                    [OpPut key_a int_25])
                 key_k int_26))
         key_a)
  = Some int_25.
Proof.
  assert (Hwf : ht_wf (ht_run (ht_init (repeat Byte.x00 210) 10 16 4)
                         [OpPut key_a int_25])).
  { apply ht_run_wf; [apply ht_init_wf; cbn; lia |].
    repeat constructor; discriminate. }
  assert (Hka : is_cstring key_a) by (repeat constructor; discriminate).
  assert (Hkk : is_cstring key_k) by (repeat constructor; discriminate).
  assert (Hl : Z.of_nat (length key_k)
               < max_key_length
                   (ht_run (ht_init (repeat Byte.x00 210) 10 16 4)
                      [OpPut key_a int_25]))
    by (vm_compute; reflexivity).
  assert (Hv : Z.of_nat (length int_26)
               = value_size
                   (ht_run (ht_init (repeat Byte.x00 210) 10 16 4)
                      [OpPut key_a int_25]))
    by (vm_compute; reflexivity).
  assert (Hne : key_a <> key_k) by discriminate.
  assert (Hg : fst (ht_get
                      (ht_run (ht_init (repeat Byte.x00 210) 10 16 4)
                         [OpPut key_a int_25]) key_a) = Some int_25)
    by (vm_compute; reflexivity).
  split; [exact (conj Hwf (conj Hkk (conj Hl (conj Hv (conj Hka (conj Hne Hg)))))) |].
  exact (ht_put_other _ key_k int_26 key_a int_25 Hwf Hkk Hl Hv Hka Hne Hg).
Defined.

(** *** Removal *)

Lemma put_hit_occupied ht key c :
  put_hit ht key c
  = negb (occupied ht c) || (strcmp (bucket_key ht c) key =? 0).
Proof. unfold put_hit, occupied. now rewrite negb_involutive. Qed.

Lemma clear_flag_occupied_eq ht c c' :
  ht_wf ht -> 0 <= c < table_size ht -> 0 <= c' < table_size ht ->
  occupied (clear_flag ht c) c' = if c' =? c then false else occupied ht c'.
Proof.
  intros Hwf Hc Hc'. unfold occupied, bucket_flag, occupied_flag_of.
  replace (bucket_of (clear_flag ht c) c') with (bucket_of ht c') by reflexivity.
  rewrite bucket_of_eq by assumption. unfold clear_flag.
  cbn [set_memory max_key_length value_size memory].
  rewrite load8_store8.
  pose proof (bucket_bounds ht c Hwf Hc).
  pose proof Hwf as [Hn Hk Hvs Hb Hr Ha Ht].
  destruct (Z.eqb_spec c' c) as [-> | Hne].
  - rewrite Z.eqb_refl.
    replace (in_range _ _) with true; [reflexivity |].
    symmetry. apply in_range_true. lia.
  - destruct (Z.eqb_spec
                (c' * bucket_size ht + max_key_length ht + value_size ht)
                (c * bucket_size ht + max_key_length ht + value_size ht));
      cbn [andb]; [| reflexivity].
    pose proof (bucket_apart ht c c' Hwf ltac:(congruence)). lia.
Qed.

Lemma length_filter_remove (f g : nat -> bool) x : forall l,
  NoDup l -> In x l -> f x = true ->
  (forall y, In y l -> g y = if Nat.eqb y x then false else f y) ->
  length (filter f l) = S (length (filter g l)).
Proof.
  induction l as [| a l IH]; intros Hnd Hin Hfx Hg; [destruct Hin |].
  pose proof (NoDup_cons_iff a l) as [Hcons _]. destruct (Hcons Hnd) as [Ha Hnd'].
  cbn [filter]. rewrite (Hg a) by now left.
  destruct (Nat.eqb_spec a x) as [-> | Hne].
  - rewrite Hfx. cbn [length]. f_equal. f_equal.
    apply filter_ext_in. intros y Hy. rewrite Hg by now right.
    destruct (Nat.eqb_spec y x) as [-> | _]; [contradiction | reflexivity].
  - destruct Hin as [E | Hin]; [contradiction |].
    specialize (IH Hnd' Hin Hfx ltac:(intros y Hy; apply Hg; now right)).
    destruct (f a); cbn [length]; lia.
Qed.

(** X19. After [ht_remove] has removed a key, [ht_get] and [ht_contains] no
    longer find it, a second [ht_remove] of it fails without changing the
    table, and one bucket less is occupied. *)
Theorem ht_remove_get ht key ht' :
  ht_wf ht -> ht_remove ht key = (true, ht') ->
  fst (ht_get ht' key) = None /\
  fst (ht_contains ht' key) = false /\
  ht_remove ht' key = (false, ht') /\
  occupancy ht' = occupancy ht - 1.
Proof.
  intros Hwf Hrem. unfold ht_remove in Hrem.
  rewrite ht_remove_loop_find in Hrem.
  destruct (find_from _ _ _) as [j |] eqn:Hfind; [| discriminate].
  pose proof (find_from_Some _ _ _ _ Hfind) as (Hj & Hhit & Hbefore).
  set (index := hash_function key mod table_size ht) in *.
  set (c := probe ht index j) in *.
  pose proof (hash_index_range ht key Hwf) as Hidx. fold index in Hidx.
  pose proof (probe_range ht index j Hwf Hidx ltac:(lia)) as Hc. fold c in Hc.
  destruct (occupied ht c) eqn:Hocc; [| discriminate].
  assert (Hht' : ht' = clear_flag ht c).
  { injection Hrem as <-. unfold clear_flag, occupied_flag_of.
    now rewrite bucket_of_eq. }
  subst ht'. clear Hrem.
  assert (Hprobe : forall i, probe (clear_flag ht c) index i = probe ht index i)
    by reflexivity.
  assert (Hfind' : find_from
            (fun i => put_hit (clear_flag ht c) key
                        (probe (clear_flag ht c) index i))
            (Z.to_nat (table_size (clear_flag ht c))) 0 = Some j).
  { apply find_from_first.
    - unfold clear_flag. cbn [set_memory table_size]. lia.
    - rewrite Hprobe. fold c. rewrite put_hit_occupied.
      rewrite clear_flag_occupied_eq, Z.eqb_refl by assumption. reflexivity.
    - intros j' Hj'. rewrite Hprobe.
      pose proof (probe_range ht index j' Hwf Hidx ltac:(lia)) as Hc'.
      rewrite put_hit_occupied, clear_flag_occupied_eq by assumption.
      rewrite clear_flag_key by assumption.
      destruct (Z.eqb_spec (probe ht index j') c) as [E | _].
      + apply probe_inj in E; try assumption; lia.
      + rewrite <- put_hit_occupied. apply Hbefore. lia. }
  assert (Hocc' : occupied (clear_flag ht c)
                    (probe (clear_flag ht c) index j) = false).
  { rewrite Hprobe. fold c.
    now rewrite clear_flag_occupied_eq, Z.eqb_refl by assumption. }
  assert (Hget : fst (ht_get (clear_flag ht c) key) = None).
  { unfold ht_get. cbn [fst]. rewrite ht_get_loop_find.
    change (hash_function key mod table_size (clear_flag ht c)) with index.
    now rewrite Hfind', Hocc'. }
  split; [exact Hget |]. split; [| split].
  - unfold ht_contains, ht_get in *. cbn [fst] in *. now rewrite Hget.
  - unfold ht_remove. rewrite ht_remove_loop_find.
    change (hash_function key mod table_size (clear_flag ht c)) with index.
    now rewrite Hfind', Hocc'.
  - unfold occupancy.
    change (table_size (clear_flag ht c)) with (table_size ht).
    rewrite (length_filter_remove
               (fun i => occupied ht (Z.of_nat i))
               (fun i => occupied (clear_flag ht c) (Z.of_nat i))
               (Z.to_nat c)).
    + lia.
    + apply seq_NoDup.
    + apply in_seq. lia.
    + rewrite Z2Nat.id by lia. exact Hocc.
    + intros y Hy. apply in_seq in Hy.
      rewrite clear_flag_occupied_eq by (assumption || lia).
      destruct (Nat.eqb_spec y (Z.to_nat c)) as [-> | Hne].
      * now rewrite Z2Nat.id, Z.eqb_refl by lia.
      * destruct (Z.eqb_spec (Z.of_nat y) c) as [E | _]; [| reflexivity].
        exfalso. apply Hne. lia.
Qed.

Lemma ht_remove_get_witness :
  (ht_wf (ht_run (ht_init (repeat Byte.x00 210) 10 16 4)
            [OpPut key_a int_25; OpPut key_k int_26]) /\
   ht_remove
     (ht_run (ht_init (repeat Byte.x00 210) 10 16 4)
        [OpPut key_a int_25; OpPut key_k int_26]) key_k
   = (true,
      ht_run (ht_init (repeat Byte.x00 210) 10 16 4)
        [OpPut key_a int_25; OpPut key_k int_26; OpRemove key_k])) /\
  fst (ht_get
         (ht_run (ht_init (repeat Byte.x00 210) 10 16 4)
            [OpPut key_a int_25; OpPut key_k int_26; OpRemove key_k])
         key_k)
  = None.
Proof.
  assert (Hwf : ht_wf (ht_run (ht_init (repeat Byte.x00 210) 10 16 4)
                         [OpPut key_a int_25; OpPut key_k int_26])).
  { apply ht_run_wf; [apply ht_init_wf; cbn; lia |].
    repeat constructor; discriminate. }
  assert (Hrem : ht_remove
                   (ht_run (ht_init (repeat Byte.x00 210) 10 16 4)
                      [OpPut key_a int_25; OpPut key_k int_26]) key_k
                 = (true,
                    ht_run (ht_init (repeat Byte.x00 210) 10 16 4)
                      [OpPut key_a int_25; OpPut key_k int_26;
                       OpRemove key_k]))
    by (vm_compute; reflexivity).
  split; [split; assumption |].
  exact (proj1 (ht_remove_get _ key_k _ Hwf Hrem)).
Defined.

(** *** The full table *)

(** X20. When every bucket is occupied by another key, [ht_put] of a key
    fails and leaves the table as it is, whatever the value, and [ht_get]
    and [ht_remove] report the key absent after a full round of probes. *)
Theorem ht_put_full ht key value :
  ht_wf ht -> is_cstring key ->
  (forall c, 0 <= c < table_size ht ->
     occupied ht c = true /\ bucket_key ht c <> key) ->
  ht_put ht key value = (false, ht) /\
  fst (ht_get ht key) = None /\
  ht_remove ht key = (false, ht).
Proof.
  intros Hwf Hkey Hfull.
  pose proof (hash_index_range ht key Hwf) as Hidx.
  assert (Hfind : find_from
            (fun j => put_hit ht key
                        (probe ht (hash_function key mod table_size ht) j))
            (Z.to_nat (table_size ht)) 0 = None).
  { apply find_from_all_false. intros j Hj.
    apply put_hit_false; [exact Hkey |]. apply Hfull.
    apply probe_range; (assumption || lia). }
  unfold ht_put, ht_get, ht_remove. cbn [fst].
  now rewrite ht_put_loop_find, ht_get_loop_find, ht_remove_loop_find, Hfind.
Qed.

Lemma ht_put_full_witness :
  (ht_wf (ht_run (ht_init (repeat Byte.x00 42) 2 16 4)
            [OpPut key_a int_25; OpPut key_k int_26]) /\
   is_cstring key_temp /\
   occupancy (ht_run (ht_init (repeat Byte.x00 42) 2 16 4)
                [OpPut key_a int_25; OpPut key_k int_26]) = 2 /\
   absent (ht_run (ht_init (repeat Byte.x00 42) 2 16 4)
             [OpPut key_a int_25; OpPut key_k int_26]) key_temp = true) /\
  ht_put (ht_run (ht_init (repeat Byte.x00 42) 2 16 4)
            [OpPut key_a int_25; OpPut key_k int_26]) key_temp int_27
  = (false,
     ht_run (ht_init (repeat Byte.x00 42) 2 16 4)
       [OpPut key_a int_25; OpPut key_k int_26]).
Proof.
  assert (Hwf : ht_wf (ht_run (ht_init (repeat Byte.x00 42) 2 16 4)
                         [OpPut key_a int_25; OpPut key_k int_26])).
  { apply ht_run_wf; [apply ht_init_wf; cbn; lia |].
    repeat constructor; discriminate. }
  assert (Hkey : is_cstring key_temp) by (repeat constructor; discriminate).
  assert (Ha : absent (ht_run (ht_init (repeat Byte.x00 42) 2 16 4)
                         [OpPut key_a int_25; OpPut key_k int_26]) key_temp
               = true) by (vm_compute; reflexivity).
  split; [split; [exact Hwf |]; split; [exact Hkey |];
          split; [vm_compute; reflexivity | exact Ha] |].
  refine (proj1 (ht_put_full _ key_temp int_27 Hwf Hkey _)).
  intros c Hc.
  assert (Hts : table_size (ht_run (ht_init (repeat Byte.x00 42) 2 16 4)
                              [OpPut key_a int_25; OpPut key_k int_26]) = 2)
    by (vm_compute; reflexivity).
  rewrite Hts in Hc.
  split; [| apply (absent_key_absent _ _ Hkey Ha);
            [rewrite Hts; exact Hc |]];
    (assert (Hcases : c = 0 \/ c = 1) by lia;
     destruct Hcases as [-> | ->]; vm_compute; reflexivity).
Defined.

(** *** A put outside the guard *)

Lemma ht_put_unguarded_witness :
  (ht_wf (ht_run (ht_init (repeat Byte.x00 210) 10 16 4)
            [OpPut key_a int_25; OpPut key_k int_26; OpRemove key_a]) /\
   is_cstring key_k /\
   found (ht_run (ht_init (repeat Byte.x00 210) 10 16 4)
            [OpPut key_a int_25; OpPut key_k int_26; OpRemove key_a]) key_k
   = false /\
   occupied (ht_run (ht_init (repeat Byte.x00 210) 10 16 4)
               [OpPut key_a int_25; OpPut key_k int_26; OpRemove key_a]) 8
   = true /\
   bucket_key (ht_run (ht_init (repeat Byte.x00 210) 10 16 4)
                 [OpPut key_a int_25; OpPut key_k int_26; OpRemove key_a]) 8
   = key_k) /\
  ~ unique_keys
      (snd (ht_put
              (ht_run (ht_init (repeat Byte.x00 210) 10 16 4)
                 [OpPut key_a int_25; OpPut key_k int_26; OpRemove key_a])
              key_k int_27)).
Proof.
  assert (Hwf : ht_wf (ht_run (ht_init (repeat Byte.x00 210) 10 16 4)
                         [OpPut key_a int_25; OpPut key_k int_26;
                          OpRemove key_a])).
  { apply ht_run_wf; [apply ht_init_wf; cbn; lia |].
    repeat constructor; discriminate. }
  assert (Hkey : is_cstring key_k) by (repeat constructor; discriminate).
  assert (Hf : found (ht_run (ht_init (repeat Byte.x00 210) 10 16 4)
                        [OpPut key_a int_25; OpPut key_k int_26;
                         OpRemove key_a]) key_k = false)
    by (vm_compute; reflexivity).
  assert (Ho : occupied (ht_run (ht_init (repeat Byte.x00 210) 10 16 4)
                           [OpPut key_a int_25; OpPut key_k int_26;
                            OpRemove key_a]) 8 = true)
    by (vm_compute; reflexivity).
  assert (Hk : bucket_key (ht_run (ht_init (repeat Byte.x00 210) 10 16 4)
                             [OpPut key_a int_25; OpPut key_k int_26;
                              OpRemove key_a]) 8 = key_k)
    by (vm_compute; reflexivity).
  split; [exact (conj Hwf (conj Hkey (conj Hf (conj Ho Hk)))) |].
  apply (ht_put_unguarded _ key_k int_27 Hwf Hkey).
  - vm_compute. reflexivity.
  - vm_compute. reflexivity.
  - exact Hf.
  - exists 8. split; [vm_compute; split; [discriminate | reflexivity] |].
    split; assumption.
Defined.

End FixedHashTableFacts.

(** ** Failure leaves the structure as it was *)

Module FailureFacts.
Import FixedHashTable FixedHashTableFacts.

(** C4. An operation that reports failure leaves the structure, its
    metadata and the bytes of its region, as it was before the call:
    [cb_write] on a full buffer, [cb_read] on an empty one, [stack_alloc]
    without room, [mp_alloc] with no free block, [ht_put] that finds no
    bucket, and [ht_get], [ht_remove] and [ht_contains] of an absent key.
    For [stack_alloc] the states are those whose cursor [memory + top] is
    an address, above [NULL] and below [2 ^ 64]: there the pointer of the
    code is [memory + top] itself, and [NULL] can only mean failure. *)
Theorem failure_leaves_state :
  (forall cb data cb',
      CircularBuffer.cb_write cb data = (false, cb') -> cb' = cb) /\
  (forall cb cb',
      CircularBuffer.cb_read cb = (None, cb') -> cb' = cb) /\
  (forall sa bytes sa',
      0 < StackAllocator.memory sa -> 0 <= StackAllocator.top sa ->
      StackAllocator.memory sa + StackAllocator.top sa < 2 ^ 64 ->
      StackAllocator.stack_alloc sa bytes = (NULL, sa') -> sa' = sa) /\
  (forall mp mp',
      MemoryPool.mp_alloc mp = (NULL, mp') -> mp' = mp) /\
  (forall ht key value ht',
      ht_put ht key value = (false, ht') -> ht' = ht) /\
  (forall ht key ht',
      ht_get ht key = (None, ht') -> ht' = ht) /\
  (forall ht key ht',
      ht_remove ht key = (false, ht') -> ht' = ht) /\
  (forall ht key ht',
      ht_contains ht key = (false, ht') -> ht' = ht).
Proof.
  repeat split.
  - intros cb data cb'. unfold CircularBuffer.cb_write.
    destruct (CircularBuffer.cb_is_full cb); [now intros [= <-] | discriminate].
  - intros cb cb'. unfold CircularBuffer.cb_read.
    destruct (CircularBuffer.cb_is_empty cb); [now intros [= <-] | discriminate].
  - intros sa bytes sa' Hm Ht Hp. unfold StackAllocator.stack_alloc.
    destruct (_ >? _); [now intros [= <-] |].
    unfold NULL. intros [= E _]. lia.
  - intros mp mp'. unfold MemoryPool.mp_alloc.
    destruct (Z.eqb_spec (MemoryPool.free_list mp) NULL) as [E | Hne];
      [now intros [= <-] |].
    intros [= E _]. contradiction.
  - intros ht key value ht'. apply ht_put_false.
  - intros ht key ht'. unfold ht_get. now intros [= _ <-].
  - intros ht key ht'. apply ht_remove_false.
  - intros ht key ht'. unfold ht_contains, ht_get. now intros [= _ <-].
Qed.

Lemma failure_leaves_state_witness :
  snd (CircularBuffer.cb_write
         (snd (CircularBuffer.cb_write
                 (CircularBuffer.cb_init [Byte.x00] 1) Byte.x2a))
         Byte.x64)
  = snd (CircularBuffer.cb_write
           (CircularBuffer.cb_init [Byte.x00] 1) Byte.x2a) /\
  snd (StackAllocator.stack_alloc (StackAllocator.stack_init 4096 100) 101)
  = StackAllocator.stack_init 4096 100 /\
  snd (ht_remove (ht_init (repeat Byte.x00 210) 10 16 4) Examples.key_temp)
  = ht_init (repeat Byte.x00 210) 10 16 4.
Proof.
  destruct failure_leaves_state as (Hw & _ & Ha & _ & _ & _ & Hr & _).
  split; [| split].
  - apply (Hw _ Byte.x64). reflexivity.
  - apply (Ha _ 101); [cbn; lia | cbn; lia | cbn; lia | reflexivity].
  - apply (Hr _ Examples.key_temp). vm_compute. reflexivity.
Defined.

(** The bound on the cursor is needed for [stack_alloc].  [stack_free_to]
    with a pointer below the region, here [NULL], leaves
    [top = 2^64 - 4096]; a request of 4146 bytes then passes the test,
    because the sum wraps to 50, and the call moves [top] to 50.  The
    address [memory + top] it returns is [2^64], which a 64-bit pointer
    holds as [NULL]. *)
Example stack_alloc_cursor_outside :
  let sa := StackAllocator.stack_free_to
              (StackAllocator.stack_init 4096 100) NULL in
  StackAllocator.top sa = 2 ^ 64 - 4096 /\
  StackAllocator.stack_alloc sa 4146
  = (2 ^ 64,
     {| StackAllocator.memory := 4096; StackAllocator.size := 100;
        StackAllocator.top := 50 |}) /\
  size_t (2 ^ 64) = NULL.
Proof. vm_compute. repeat split. Qed.

End FailureFacts.
